(** * clean_image_background.py: colour-range background eraser

    A shallow embedding of [Scripts/clean_image_background.py]: colour
    parsing, the RGB to HSV conversion, the background predicate and the
    two erasure modes of [process_image] (seeded flood fill and full scan).
    Definitions come first, the properties after them. *)

From Stdlib Require Import Ascii String.
From Stdlib Require Import ZArith Lia List Bool QArith Qround.
From Stdlib Require Import PrimFloat FloatOps SpecFloat Uint63.
From Stdlib Require DecimalString DecimalPos DecimalZ DecimalFacts.
From stdpp Require Import base gmap list.

Local Open Scope Z_scope.
#[local] Set Warnings "-clear-no-such-hyp".

(** * The program *)

(** ** Exceptions and results

    Python code either returns or raises.  [Timeout] is only produced by
    the fuel-bounded model of the [while] loop when the fuel runs out. *)

Inductive exn : Type :=
| AssertionError | IndexError | ValueError | ZeroDivisionError | OverflowError.

Inductive outcome (A : Type) : Type :=
| Done (a : A)
| Raised (e : exn)
| Timeout.

Arguments Done {A} a.
Arguments Raised {A} e.
Arguments Timeout {A}.

#[global] Instance outcome_ret : MRet outcome := fun A a => Done a.
#[global] Instance outcome_bind : MBind outcome := fun A B k m =>
  match m with
  | Done a => k a
  | Raised e => Raised e
  | Timeout => Timeout
  end.

(** A Python [for] loop over a list whose body updates the state [S] and
    may raise. *)
Fixpoint for_each {A S : Type} (body : A -> S -> outcome S) (l : list A) (s : S)
  : outcome S :=
  match l with
  | [] => Done s
  | a :: l' => s' ← body a s; for_each body l' s'
  end.

(** [range(n)] and [range(a, b)]. *)
Definition range (n : Z) : list Z := seqZ 0 n.
Definition range2 (a b : Z) : list Z := seqZ a (b - a).

(** ** Python floats

    Python's [float] is IEEE-754 binary64, which is what Rocq's primitive
    [float] computes with.  The integers the script converts are channel
    values, far below [2^53]. *)

Module PyFloat.

(** [float(z)] for an integer with [|z| < 2^53]. *)
Definition of_int (z : Z) : float :=
  if z <? 0 then PrimFloat.opp (PrimFloat.of_uint63 (Uint63.of_Z (- z)))
  else PrimFloat.of_uint63 (Uint63.of_Z z).

(** [int(f)]: truncation towards zero.  Python raises on nan
    ([ValueError]) and on infinities ([OverflowError]). *)
Definition to_int (f : float) : outcome Z :=
  match Prim2SF f with
  | S754_zero _ => Done 0
  | S754_finite s m e =>
      let mag := Z.shiftl (Z.pos m) e in
      Done (if s then - mag else mag)
  | S754_infinity _ => Raised OverflowError
  | S754_nan => Raised ValueError
  end.

(** [a / b] on floats raises when the divisor is zero. *)
Definition div (a b : float) : outcome float :=
  if PrimFloat.eqb b PrimFloat.zero then Raised ZeroDivisionError
  else Done (PrimFloat.div a b).

(** The C [fmod x 1.0]: [x] itself when [|x| < 1], otherwise [x] minus its
    truncation (exact in both cases, the second for [|x| < 2^53]; the
    script only reaches the first); nan on nan and infinities. *)
Definition fmod1 (x : float) : float :=
  if PrimFloat.ltb (PrimFloat.abs x) PrimFloat.one then x
  else match to_int x with
       | Done t => PrimFloat.sub x (of_int t)
       | _ => PrimFloat.nan
       end.

(** [x % 1.0] as CPython's [float_rem] computes it: [fmod], then a sign
    fix-up towards the (positive) divisor. *)
Definition mod1 (x : float) : float :=
  let m := fmod1 x in
  if PrimFloat.eqb m PrimFloat.zero then PrimFloat.zero
  else if PrimFloat.ltb m PrimFloat.zero then PrimFloat.add m PrimFloat.one
  else m.

(** Python's [max]/[min] of three arguments keep the first extremal one. *)
Definition max3 (a b c : float) : float :=
  let m := if PrimFloat.ltb a b then b else a in
  if PrimFloat.ltb m c then c else m.

Definition min3 (a b c : float) : float :=
  let m := if PrimFloat.ltb b a then b else a in
  if PrimFloat.ltb c m then c else m.

Definition f2 : float := Eval vm_compute in of_int 2.
Definition f4 : float := Eval vm_compute in of_int 4.
Definition f6 : float := Eval vm_compute in of_int 6.
Definition f179 : float := Eval vm_compute in of_int 179.
Definition f255 : float := Eval vm_compute in of_int 255.

End PyFloat.

(** ** Colours and pixels *)

Abbreviation color := (Z * Z * Z)%type.
Abbreviation pixel := (Z * Z * Z * Z)%type.
Abbreviation coord := (Z * Z)%type.

(** The value written by every erasure: black with alpha 0. *)
Definition transparent : pixel := (0, 0, 0, 0).

(** [colorsys.rgb_to_hsv] of the Python standard library. *)
Definition colorsys_rgb_to_hsv (r g b : float) : outcome (float * float * float) :=
  let maxc := PyFloat.max3 r g b in
  let minc := PyFloat.min3 r g b in
  let rangec := PrimFloat.sub maxc minc in
  let v := maxc in
  if PrimFloat.eqb minc maxc then Done (PrimFloat.zero, PrimFloat.zero, v)
  else
    s ← PyFloat.div rangec maxc;
    rc ← PyFloat.div (PrimFloat.sub maxc r) rangec;
    gc ← PyFloat.div (PrimFloat.sub maxc g) rangec;
    bc ← PyFloat.div (PrimFloat.sub maxc b) rangec;
    let h :=
      if PrimFloat.eqb r maxc then PrimFloat.sub bc gc
      else if PrimFloat.eqb g maxc then
        PrimFloat.sub (PrimFloat.add PyFloat.f2 rc) bc
      else PrimFloat.sub (PrimFloat.add PyFloat.f4 gc) rc in
    h6 ← PyFloat.div h PyFloat.f6;
    Done (PyFloat.mod1 h6, s, v).

(** The three channels as the floats [r / 255.0], [g / 255.0], [b / 255.0]. *)
Definition unit_channel (z : Z) : float :=
  PrimFloat.div (PyFloat.of_int z) PyFloat.f255.

(** The scaling of [rgb_to_hsv_opencv]'s return line. *)
Definition scale_hsv (hsv : float * float * float) : outcome color :=
  let '(h, s, v) := hsv in
  h' ← PyFloat.to_int (PrimFloat.mul h PyFloat.f179);
  s' ← PyFloat.to_int (PrimFloat.mul s PyFloat.f255);
  v' ← PyFloat.to_int (PrimFloat.mul v PyFloat.f255);
  Done (h', s', v').

Definition rgb_to_hsv_opencv (r g b : Z) : outcome color :=
  hsv ← colorsys_rgb_to_hsv (unit_channel r) (unit_channel g) (unit_channel b);
  scale_hsv hsv.

Definition is_within_bounds (p : pixel) (lower_bound upper_bound : color)
    (use_hsv : bool) : outcome bool :=
  let '(r, g, b, _) := p in
  if use_hsv then
    '(h, s, v) ← rgb_to_hsv_opencv r g b;
    let '(lh, ls, lv) := lower_bound in
    let '(uh, us, uv) := upper_bound in
    Done ((lh <=? h) && (h <=? uh) &&
          ((ls <=? s) && (s <=? us)) &&
          ((lv <=? v) && (v <=? uv)))
  else
    let '(lr, lg, lb) := lower_bound in
    let '(ur, ug, ub) := upper_bound in
    Done ((lr <=? r) && (r <=? ur) &&
          ((lg <=? g) && (g <=? ug)) &&
          ((lb <=? b) && (b <=? ub))).

(** The matcher configuration captured by the closure [is_background]. *)
Record config : Type := Config {
  lower_color : color;
  upper_color : color;
  inverse : bool;
  use_hsv : bool
}.

(** [is_background]: [within_bounds != inverse]. *)
Definition is_background (cfg : config) (p : pixel) : outcome bool :=
  within_bounds ← is_within_bounds p (lower_color cfg) (upper_color cfg) (use_hsv cfg);
  Done (negb (Bool.eqb within_bounds (inverse cfg))).

(** ** The raster

    [pixels = img.load()] is an array indexed by [(x, y)] and mutated in
    place; [width] and [height] never change.  Reading or writing outside
    the image raises [IndexError] (the script guards every access, so the
    out-of-range behaviour is never exercised). *)

Record raster : Type := Raster {
  width : Z;
  height : Z;
  pixels : gmap coord pixel
}.

Definition in_bounds (W H : Z) (c : coord) : bool :=
  (0 <=? c.1) && (c.1 <? W) && ((0 <=? c.2) && (c.2 <? H)).

Definition getpixel (W H : Z) (px : gmap coord pixel) (c : coord) : outcome pixel :=
  if in_bounds W H c then
    match px !! c with
    | Some p => Done p
    | None => Raised IndexError
    end
  else Raised IndexError.

Definition putpixel (W H : Z) (px : gmap coord pixel) (c : coord) (v : pixel)
  : outcome (gmap coord pixel) :=
  if in_bounds W H c then Done (<[c := v]> px) else Raised IndexError.

(** ** Worklists

    The script keeps the pending coordinates in a Python list used as a
    stack: [append] adds at the end and [pop] removes the last element.  A
    queue differs only in [pop], which removes the first element. *)

Class Worklist : Type := {
  wl_append : list coord -> coord -> list coord;
  wl_pop : list coord -> option (coord * list coord)
}.

Definition lifo_pop (l : list coord) : option (coord * list coord) :=
  match rev l with
  | [] => None
  | c :: r => Some (c, rev r)
  end.

Definition fifo_pop (l : list coord) : option (coord * list coord) :=
  match l with
  | [] => None
  | c :: r => Some (c, r)
  end.

Definition lifo : Worklist :=
  {| wl_append := fun l c => l ++ [c]; wl_pop := lifo_pop |}.

Definition fifo : Worklist :=
  {| wl_append := fun l c => l ++ [c]; wl_pop := fifo_pop |}.

(** What the flood fill needs from a worklist discipline. *)
Class WorklistLaws (wl : Worklist) : Prop := {
  wl_pop_None : forall l, wl_pop l = None -> l = [];
  wl_pop_Some : forall l c l', wl_pop l = Some (c, l') -> l ≡ₚ c :: l';
  wl_append_perm : forall l c, wl_append l c ≡ₚ c :: l
}.

(** ** Flood mode *)

(** The mutable state of the flood branch.  [st_pushed] is a ghost field:
    the history of [stack.append] calls, oldest first; nothing reads it. *)
Record fstate : Type := FState {
  st_pixels : gmap coord pixel;
  st_visited : gset coord;
  st_stack : list coord;
  st_count : nat;
  st_pushed : list coord
}.

Section flood.
Context (wl : Worklist).
Variable cfg : config.
Variables W H : Z.

(** [visited.add((x, y)); stack.append((x, y))]. *)
Definition push (c : coord) (st : fstate) : fstate :=
  {| st_pixels := st_pixels st;
     st_visited := {[c]} ∪ st_visited st;
     st_stack := wl_append (st_stack st) c;
     st_count := st_count st;
     st_pushed := st_pushed st ++ [c] |}.

(** [if (x, y) not in visited and is_background(pixels[x, y]): ...];
    the pixel is read only when the coordinate is not yet visited. *)
Definition push_if_background (c : coord) (st : fstate) : outcome fstate :=
  if decide (c ∈ st_visited st) then Done st
  else
    p ← getpixel W H (st_pixels st) c;
    b ← is_background cfg p;
    Done (if b : bool then push c st else st).

(** [for x in range(width): for y in [0, height - 1]]. *)
Definition border_rows : list coord :=
  x ← range W; [(x, 0); (x, H - 1)].

(** [for y in range(1, height-1): for x in [0, width - 1]]. *)
Definition border_cols : list coord :=
  y ← range2 1 (H - 1); [(0, y); (W - 1, y)].

(** The body of the manual-seed loop: in-bounds points not yet visited are
    pushed whatever their colour. *)
Definition push_manual (c : coord) (st : fstate) : outcome fstate :=
  Done (if in_bounds W H c then
          if decide (c ∈ st_visited st) then st else push c st
        else st).

Definition neighbours (c : coord) : list coord :=
  (fun d : coord => (c.1 + d.1, c.2 + d.2)) <$> [(-1, 0); (1, 0); (0, -1); (0, 1)].

(** The body of the inner [for dx, dy] loop. *)
Definition visit_neighbour (n : coord) (st : fstate) : outcome fstate :=
  if in_bounds W H n then push_if_background n st else Done st.

(** One iteration of [while stack], after [stack.pop()] returned [c] and
    left [rest]. *)
Definition flood_iter (c : coord) (rest : list coord) (st : fstate) : outcome fstate :=
  px ← putpixel W H (st_pixels st) c transparent;
  for_each visit_neighbour (neighbours c)
    {| st_pixels := px;
       st_visited := st_visited st;
       st_stack := rest;
       st_count := S (st_count st);
       st_pushed := st_pushed st |}.

(** [while stack: ...]; one unit of fuel per iteration. *)
Fixpoint flood_loop (fuel : nat) (st : fstate) {struct fuel} : outcome fstate :=
  match wl_pop (st_stack st) with
  | None => Done st
  | Some (c, rest) =>
      match fuel with
      | O => Timeout
      | S fuel' => st' ← flood_iter c rest st; flood_loop fuel' st'
      end
  end.

(** Seeding: the two border loops, then the manual points ([if
    manual_points:] only skips an empty loop). *)
Definition flood_seed (manual_points : list coord) (px : gmap coord pixel)
  : outcome fstate :=
  st ← for_each push_if_background border_rows
         {| st_pixels := px; st_visited := ∅; st_stack := [];
            st_count := 0%nat; st_pushed := [] |};
  st ← for_each push_if_background border_cols st;
  for_each push_manual manual_points st.

Definition flood_run (fuel : nat) (manual_points : list coord)
    (px : gmap coord pixel) : outcome fstate :=
  st ← flood_seed manual_points px;
  flood_loop fuel st.

End flood.

(** ** Non-flood mode *)

Section scan.
Variable cfg : config.
Variables W H : Z.

(** Manual points: erased and counted, whatever their colour. *)
Definition erase_manual (c : coord) (s : gmap coord pixel * nat)
  : outcome (gmap coord pixel * nat) :=
  if in_bounds W H c then
    px ← putpixel W H s.1 c transparent;
    Done (px, S s.2)
  else Done s.

(** [for y in range(height): for x in range(width)]. *)
Definition row_major : list coord :=
  y ← range H; (fun x => (x, y)) <$> range W.

Definition erase_if_background (c : coord) (s : gmap coord pixel * nat)
  : outcome (gmap coord pixel * nat) :=
  p ← getpixel W H s.1 c;
  b ← is_background cfg p;
  if b : bool then
    px ← putpixel W H s.1 c transparent;
    Done (px, S s.2)
  else Done s.

(** The manual pass ([if manual_points:] only skips an empty loop), then
    the scan. *)
Definition scan_run (manual_points : list coord) (px : gmap coord pixel)
  : outcome (gmap coord pixel * nat) :=
  s ← for_each erase_manual manual_points (px, 0%nat);
  for_each erase_if_background row_major s.

End scan.

(** ** [process_image]

    From [pixels = img.load()] to just before [img.save]: the raster after
    processing and the reported count.  The flood loop gets [width * height]
    units of fuel, which is enough (see [flood_loop_inv]). *)
Definition process_image_with (wl : Worklist) (img : raster) (cfg : config)
    (flood_fill : bool) (manual_points : list coord) : outcome (raster * nat) :=
  let W := width img in
  let H := height img in
  if (0 <? W) && (0 <? H) then
    if flood_fill then
      st ← flood_run wl cfg W H (Z.to_nat (W * H)) manual_points (pixels img);
      Done (Raster W H (st_pixels st), st_count st)
    else
      s ← scan_run cfg W H manual_points (pixels img);
      Done (Raster W H s.1, s.2)
  else Raised AssertionError.

Definition process_image : raster -> config -> bool -> list coord -> outcome (raster * nat) :=
  process_image_with lifo.

(** ** Building rasters

    A raster given by its rows, top row first (how a decoded image is laid
    out); the width is that of the first row. *)
Definition index_from {A : Type} (l : list A) : list (Z * A) :=
  zip (seqZ 0 (Z.of_nat (length l))) l.

Definition raster_of_rows (rows : list (list pixel)) : raster :=
  {| width := Z.of_nat (length (hd [] rows));
     height := Z.of_nat (length rows);
     pixels := list_to_map
                 ('(y, row) ← index_from rows;
                  (fun xp : Z * pixel => ((xp.1, y), xp.2)) <$> index_from row) |}.

(** ** Command-line strings

    Characters are code points below 256.  Only the ASCII digits are
    decimal digits there; the whitespace is what [str.strip] and [int]
    skip.  [int] refuses a literal of more than [max_str_digits] digits,
    the interpreter's default limit, with [ValueError]. *)

Module PyStr.

Definition code (c : Ascii.ascii) : Z := Z.of_N (Ascii.N_of_ascii c).

Definition is_space (c : Ascii.ascii) : bool :=
  let n := code c in
  ((9 <=? n) && (n <=? 13)) || ((28 <=? n) && (n <=? 32)) || (n =? 133) || (n =? 160).

Definition is_digit (c : Ascii.ascii) : bool :=
  let n := code c in (48 <=? n) && (n <=? 57).

(** [s.split(sep)] for a one-character separator. *)
Fixpoint split (sep : Ascii.ascii) (s : list Ascii.ascii) : list (list Ascii.ascii) :=
  match s with
  | [] => [[]]
  | c :: s' =>
      if Ascii.eqb c sep then [] :: split sep s'
      else match split sep s' with
           | tok :: toks => (c :: tok) :: toks
           | [] => [[c]]
           end
  end.

Fixpoint lstrip (s : list Ascii.ascii) : list Ascii.ascii :=
  match s with
  | c :: s' => if is_space c then lstrip s' else s
  | [] => []
  end.

(** [s.strip()]. *)
Definition strip (s : list Ascii.ascii) : list Ascii.ascii :=
  rev (lstrip (rev (lstrip s))).

(** The digits of a decimal literal after the first one: single
    underscores may separate digits. *)
Fixpoint digits (acc : Z) (after_underscore : bool) (s : list Ascii.ascii) : option Z :=
  match s with
  | [] => if after_underscore then None else Some acc
  | c :: s' =>
      if is_digit c then digits (10 * acc + (code c - 48)) false s'
      else if Ascii.eqb c "_"%char && negb after_underscore then digits acc true s'
      else None
  end.

(** The interpreter's default limit on the digits of a decimal literal
    ([sys.int_info.default_max_str_digits]). *)
Definition max_str_digits : Z := 4300.

(** The digits the limit counts: leading zeros do count, underscores do
    not. *)
Fixpoint count_digits (s : list Ascii.ascii) : Z :=
  match s with
  | c :: s' => (if is_digit c then 1 else 0) + count_digits s'
  | [] => 0
  end.

Definition unsigned (s : list Ascii.ascii) : option Z :=
  match s with
  | c :: s' =>
      if is_digit c then
        match digits (code c - 48) false s' with
        | Some z => if max_str_digits <? count_digits s then None else Some z
        | None => None
        end
      else None
  | [] => None
  end.

(** [int(s)] in base 10: surrounding whitespace, an optional sign, digits;
    the sign is not counted against the limit. *)
Definition int (s : list Ascii.ascii) : outcome Z :=
  let body := strip s in
  let r := match body with
           | c :: s' =>
               if Ascii.eqb c "-"%char then Z.opp <$> unsigned s'
               else if Ascii.eqb c "+"%char then unsigned s'
               else unsigned body
           | [] => None
           end in
  match r with
  | Some z => Done z
  | None => Raised ValueError
  end.

End PyStr.

(** [for x in l: acc.append(f(x))] for an [f] that may raise. *)
Fixpoint map_outcome {A B : Type} (f : A -> outcome B) (l : list A) : outcome (list B) :=
  match l with
  | [] => Done []
  | a :: l' => b ← f a; bs ← map_outcome f l'; Done (b :: bs)
  end.

(** The [try] body of [parse_color] up to the range check: three
    comma-separated tokens, each stripped and read as an integer. *)
Definition color_components (color_str : String.string) : outcome (list Z) :=
  let parts := PyStr.split ","%char (String.list_ascii_of_string color_str) in
  if (length parts =? 3)%nat then
    map_outcome (fun x => PyStr.int (PyStr.strip x)) parts
  else Raised ValueError.

(** [parse_color]: whatever the body raises is re-raised as [ValueError];
    the only range check is [0 <= val <= 255]. *)
Definition parse_color (color_str : String.string) : outcome color :=
  match color_components color_str with
  | Done [r; g; b] =>
      if forallb (fun val => (0 <=? val) && (val <=? 255)) [r; g; b]
      then Done (r, g, b)
      else Raised ValueError
  | _ => Raised ValueError
  end.

Definition parse_point (point_str : String.string) : outcome coord :=
  let parts := PyStr.split ","%char (String.list_ascii_of_string point_str) in
  match parts with
  | [px; py] =>
      match PyStr.int (PyStr.strip px), PyStr.int (PyStr.strip py) with
      | Done x, Done y => Done (x, y)
      | _, _ => Raised ValueError
      end
  | _ => Raised ValueError
  end.

(** ** [main] *)

(** The namespace [argparse] returns ([points] is empty when [-p] is absent). *)
Record arguments : Type := Arguments {
  arg_input : String.string;
  arg_lower_color : String.string;
  arg_upper_color : String.string;
  arg_inverse : bool;
  arg_hsv : bool;
  arg_flood_fill : bool;
  arg_points : list String.string;
  arg_output : String.string
}.

(** [parser.parse_args()] either returns the namespace or leaves the
    program itself through [sys.exit]: with status 2 after a usage error
    (a missing positional argument, an unknown option, and so a colour or
    point that starts with ['-'] and is taken for one), with status 0
    after printing the help. *)
Inductive parse_result : Type :=
| ArgparseExit (status : Z)
| Namespace (args : arguments).

(** What [main] does: either the process exits with a status, never
    touching the image (the parser's own exit, or [sys.exit(1)] after the
    error has been printed), or [main] calls [process_image], the only
    place where the image is opened and saved. *)
Inductive main_result : Type :=
| SysExit (status : Z)
| ProcessImage (input_path : String.string) (lower upper : color)
    (inverse flood_fill : bool) (manual_points : list coord)
    (output_path : String.string) (use_hsv : bool).

(** [main] on the command line [argv] (that is [sys.argv[1:]]).  The
    parser of lines 186-210 belongs to the [argparse] library: its
    [parse_args] is the parameter. *)
Definition main (parse_args : list String.string -> parse_result)
    (argv : list String.string) : main_result :=
  match parse_args argv with
  | ArgparseExit status => SysExit status
  | Namespace args =>
      match parse_color (arg_lower_color args) with
      | Done lower =>
          match parse_color (arg_upper_color args) with
          | Done upper =>
              match map_outcome parse_point (arg_points args) with
              | Done manual_points =>
                  ProcessImage (arg_input args) lower upper (arg_inverse args)
                    (arg_flood_fill args) manual_points (arg_output args) (arg_hsv args)
              | _ => SysExit 1
              end
          | _ => SysExit 1
          end
      | _ => SysExit 1
      end
  end.

(** * Specification vocabulary

    Predicates and invariants the properties are stated with. *)

(** ** Well-formed rasters

    An RGBA raster of positive size: every in-range coordinate holds a
    pixel whose four channels are bytes. *)
Definition byte (z : Z) : bool := (0 <=? z) && (z <=? 255).

Definition byte_pixel (p : pixel) : bool :=
  let '(r, g, b, a) := p in byte r && byte g && byte b && byte a.

Definition well_formed (img : raster) : bool :=
  (0 <? width img) && (0 <? height img) &&
  forallb (fun c => match pixels img !! c with
                    | Some p => byte_pixel p
                    | None => false
                    end)
          (row_major (width img) (height img)).

(** ** Finite conversion results

    [hsv_finite] is run on all [256^3] byte triples to show that the
    conversion never raises on bytes. *)

Definition hsv_finite (r g b : float) : bool :=
  match colorsys_rgb_to_hsv r g b with
  | Done (h, s, v) =>
      PrimFloat.is_finite (PrimFloat.mul h PyFloat.f179) &&
      PrimFloat.is_finite (PrimFloat.mul s PyFloat.f255) &&
      PrimFloat.is_finite (PrimFloat.mul v PyFloat.f255)
  | _ => false
  end.

Definition unit_channels : list float := unit_channel <$> range 256.

(** ** The conversion as specified

    Hue in degrees by the standard formula, halved and truncated;
    saturation and value in [0,1] times 255, truncated.  Exact rational
    arithmetic. *)

Definition standard_hue_degrees (r g b : Z) : Q :=
  let maxc := Z.max r (Z.max g b) in
  let minc := Z.min r (Z.min g b) in
  let delta := inject_Z (maxc - minc) in
  if maxc =? minc then 0%Q
  else
    let sextant :=
      if r =? maxc then (inject_Z (g - b) / delta)%Q
      else if g =? maxc then (2 + inject_Z (b - r) / delta)%Q
      else (4 + inject_Z (r - g) / delta)%Q in
    let sextant := if Qle_bool 0 sextant then sextant else (sextant + 6)%Q in
    (60 * sextant)%Q.

Definition standard_saturation (r g b : Z) : Q :=
  let maxc := Z.max r (Z.max g b) in
  let minc := Z.min r (Z.min g b) in
  if maxc =? 0 then 0%Q else (inject_Z (maxc - minc) / inject_Z maxc)%Q.

Definition standard_value (r g b : Z) : Q :=
  (inject_Z (Z.max r (Z.max g b)) / 255)%Q.

Definition hsv_as_specified (r g b : Z) : color :=
  (Qfloor (standard_hue_degrees r g b / 2),
   Qfloor (standard_saturation r g b * 255),
   Qfloor (standard_value r g b * 255)).

(** *** Plain command lines

    The command lines of the shape the epilog shows: the three positional
    arguments first, then options spelled in full ([-i], [--inverse],
    [--hsv], [-f], [--flood-fill], [-o] or [--output] with one value, [-p]
    or [--points] with one or more values), no positional argument and no
    value starting with ['-'].  On these [argparse] returns the namespace
    [plain_parse_args] computes; a repeated option overrides the earlier
    one.  All other command lines (abbreviated or joined options, [--],
    [-h], arguments starting with ['-'], usage errors) are left out:
    [None]. *)

Definition dashed (s : String.string) : bool :=
  match s with
  | String c _ => Ascii.eqb c "-"
  | EmptyString => false
  end.

Definition is_one_of (tok : String.string) (names : list String.string) : bool :=
  existsb (String.eqb tok) names.

(** What may follow: any option; the value of [-o]; the first value of
    [-p]; further values of [-p] or an option. *)
Inductive expecting : Type := AnyOption | OutputPath | FirstPoint | MorePoints.

Fixpoint plain_options (st : expecting) (args : arguments)
    (argv : list String.string) : option arguments :=
  let '(Arguments input lower upper inv hsv flood points output) := args in
  match argv with
  | [] =>
      match st with
      | AnyOption | MorePoints => Some args
      | OutputPath | FirstPoint => None
      end
  | tok :: rest =>
      match st, dashed tok with
      | (AnyOption | MorePoints), true =>
          if is_one_of tok ["-i"; "--inverse"]%string then
            plain_options AnyOption
              (Arguments input lower upper true hsv flood points output) rest
          else if is_one_of tok ["--hsv"]%string then
            plain_options AnyOption
              (Arguments input lower upper inv true flood points output) rest
          else if is_one_of tok ["-f"; "--flood-fill"]%string then
            plain_options AnyOption
              (Arguments input lower upper inv hsv true points output) rest
          else if is_one_of tok ["-p"; "--points"]%string then
            plain_options FirstPoint
              (Arguments input lower upper inv hsv flood [] output) rest
          else if is_one_of tok ["-o"; "--output"]%string then
            plain_options OutputPath args rest
          else None
      | OutputPath, false =>
          plain_options AnyOption
            (Arguments input lower upper inv hsv flood points tok) rest
      | (FirstPoint | MorePoints), false =>
          plain_options MorePoints
            (Arguments input lower upper inv hsv flood (points ++ [tok]) output) rest
      | _, _ => None
      end
  end.

Definition plain_parse_args (argv : list String.string) : option parse_result :=
  match argv with
  | input :: lower :: upper :: options =>
      if dashed input || dashed lower || dashed upper then None
      else Namespace <$>
             plain_options AnyOption
               (Arguments input lower upper false false false [] "output.png")
               options
  | _ => None
  end.

(** A parser to run [main] with: it accepts the plain command lines, on
    which it is [argparse], and answers every other one with a usage
    error. *)
Definition strict_parse_args (argv : list String.string) : parse_result :=
  default (ArgparseExit 2) (plain_parse_args argv).

(** *** Sample command lines *)

(** The namespace of [icon.png LOWER UPPER --hsv -f]. *)
Definition hsv_arguments (lower upper : String.string) : arguments :=
  {| arg_input := "icon.png"; arg_lower_color := lower; arg_upper_color := upper;
     arg_inverse := false; arg_hsv := true; arg_flood_fill := true;
     arg_points := []; arg_output := "output.png" |}.

Definition hsv_command_line (lower upper : String.string) : list String.string :=
  ["icon.png"; lower; upper; "--hsv"; "-f"]%string.

(** ** Connectivity *)

(** The pixel at [c] exists and is classified as background. *)
Definition matches_background (cfg : config) (px : gmap coord pixel) (c : coord) : Prop :=
  exists p, px !! c = Some p /\ is_background cfg p = Done true.

Definition on_border (W H : Z) (c : coord) : bool :=
  in_bounds W H c &&
  ((c.1 =? 0) || (c.1 =? W - 1) || (c.2 =? 0) || (c.2 =? H - 1)).

(** [connected c]: [c] is a background-matching border pixel or a valid
    manual point, or is reached from one by 4-adjacent steps through
    background-matching pixels. *)
Inductive connected (cfg : config) (W H : Z) (px : gmap coord pixel)
    (manual : list coord) : coord -> Prop :=
| connected_border c :
    on_border W H c = true -> matches_background cfg px c ->
    connected cfg W H px manual c
| connected_manual c :
    c ∈ manual -> in_bounds W H c = true ->
    connected cfg W H px manual c
| connected_step c n :
    connected cfg W H px manual c ->
    n ∈ neighbours c -> in_bounds W H n = true -> matches_background cfg px n ->
    connected cfg W H px manual n.

(** ** Invariants of the flood branch *)

Record flood_inv (cfg : config) (W H : Z) (orig : gmap coord pixel)
    (manual : list coord) (st : fstate) : Prop := FloodInv {
  inv_bounds : forall k, k ∈ st_visited st -> in_bounds W H k = true;
  inv_stack : forall k, k ∈ st_stack st -> k ∈ st_visited st;
  inv_pushed : forall k, k ∈ st_visited st <-> k ∈ st_pushed st;
  inv_nodup : NoDup (st_pushed st);
  inv_nodup_stack : NoDup (st_stack st);
  inv_count : (st_count st + length (st_stack st) = length (st_pushed st))%nat;
  inv_sound : forall k, k ∈ st_visited st -> connected cfg W H orig manual k;
  inv_pixels : forall k,
    st_pixels st !! k =
      if decide (k ∈ st_visited st /\ k ∉ st_stack st)
      then Some transparent else orig !! k
}.

(** Every coordinate already popped has had its matching neighbours
    visited, except the neighbours [pend] of [c] still to be examined. *)
Definition closure_inv (cfg : config) (W H : Z) (orig : gmap coord pixel)
    (c : coord) (pend : list coord) (st : fstate) : Prop :=
  forall k n, k ∈ st_visited st -> k ∉ st_stack st ->
    n ∈ neighbours k -> in_bounds W H n = true -> matches_background cfg orig n ->
    n ∈ st_visited st \/ (k = c /\ n ∈ pend).

(** How a seeding or neighbour step may change the state. *)
Record extends (st st' : fstate) : Prop := Extends {
  ext_visited : forall k, k ∈ st_visited st -> k ∈ st_visited st';
  ext_stack : forall k, k ∈ st_stack st -> k ∈ st_stack st';
  ext_new : forall k, k ∈ st_visited st' -> k ∈ st_visited st \/ k ∈ st_stack st';
  ext_count : st_count st' = st_count st
}.

(** During seeding nothing has been popped yet. *)
Definition all_pending (st : fstate) : Prop :=
  forall k, k ∈ st_visited st -> k ∈ st_stack st.

(** The state before seeding. *)
Definition initial_state (orig : gmap coord pixel) : fstate :=
  {| st_pixels := orig; st_visited := ∅; st_stack := [];
     st_count := 0%nat; st_pushed := [] |}.

(** Seeds: background-matching border pixels and valid manual points. *)
Definition seeded (cfg : config) (W H : Z) (orig : gmap coord pixel)
    (manual : list coord) (st : fstate) : Prop :=
  (forall c, on_border W H c = true -> matches_background cfg orig c ->
     c ∈ st_visited st) /\
  (forall c, c ∈ manual -> in_bounds W H c = true -> c ∈ st_visited st).

(** What the flood branch has computed when the loop ends. *)
Record flood_spec (cfg : config) (W H : Z) (orig : gmap coord pixel)
    (manual : list coord) (st : fstate) : Prop := FloodSpec {
  spec_stack : st_stack st = [];
  spec_visited : forall k, k ∈ st_visited st <-> connected cfg W H orig manual k;
  spec_pixels : forall k,
    st_pixels st !! k =
      if decide (k ∈ st_visited st) then Some transparent else orig !! k;
  spec_pushed : forall k, k ∈ st_pushed st <-> k ∈ st_visited st;
  spec_nodup : NoDup (st_pushed st);
  spec_count : st_count st = length (st_pushed st);
  spec_bound : (st_count st <= Z.to_nat W * Z.to_nat H)%nat;
  spec_in_bounds : forall k, k ∈ st_pushed st -> in_bounds W H k = true
}.

(** [connected] is decided by running the flood fill. *)
Definition connectedb (cfg : config) (img : raster) (manual : list coord) (c : coord) : bool :=
  match flood_run lifo cfg (width img) (height img)
          (Z.to_nat (width img * height img)) manual (pixels img) with
  | Done st => bool_decide (c ∈ st_visited st)
  | _ => false
  end.

(** *** Sample rasters *)

Definition dark : pixel := (10, 10, 10, 255).
Definition light : pixel := (200, 200, 200, 255).

(** A light centre inside a dark border, and a dark centre inside a light
    border. *)
Definition dark_ring : raster :=
  raster_of_rows [[dark; dark; dark]; [dark; light; dark]; [dark; dark; dark]].
Definition light_ring : raster :=
  raster_of_rows [[light; light; light]; [light; dark; light]; [light; light; light]].

(** Dark pixels are background: range [(0,0,0)..(20,20,20)], RGB. *)
Definition dark_is_background : config :=
  {| lower_color := (0, 0, 0); upper_color := (20, 20, 20);
     inverse := false; use_hsv := false |}.

(** ** Counting in non-flood mode *)

(** The classification as a boolean ([false] when [is_background] raises,
    which it never does on byte channels). *)
Definition bgb (cfg : config) (p : pixel) : bool :=
  match is_background cfg p with
  | Done b => b
  | _ => false
  end.

(** The pixels after the manual-point pass: valid manual points are
    transparent, the others untouched. *)
Definition after_manual (W H : Z) (manual : list coord) (px : gmap coord pixel)
    (k : coord) : option pixel :=
  if decide (k ∈ manual /\ in_bounds W H k = true) then Some transparent
  else px !! k.

(** Whether the row-major scan erases and counts [c]: it classifies the
    pixel it reads, which is the one the manual pass left. *)
Definition scan_counts (cfg : config) (W H : Z) (manual : list coord)
    (px : gmap coord pixel) (c : coord) : bool :=
  match after_manual W H manual px c with
  | Some p => bgb cfg p
  | None => false
  end.

Definition valid_points (W H : Z) (manual : list coord) : list coord :=
  filter (fun c => in_bounds W H c = true) manual.

Definition scan_hits (cfg : config) (W H : Z) (manual : list coord)
    (px : gmap coord pixel) : list coord :=
  filter (fun c => scan_counts cfg W H manual px c = true) (row_major W H).

(** *** More sample data *)

(** A raster of one pixel. *)
Definition one_pixel (p : pixel) : raster := raster_of_rows [[p]].

(** Background is the range [(10,10,10)..(20,20,20)], RGB: black is outside. *)
Definition grey_is_background : config :=
  {| lower_color := (10, 10, 10); upper_color := (20, 20, 20);
     inverse := false; use_hsv := false |}.

Definition sample_points : list coord := [(1, 1); (9, 9)].

(** *** The 3x3 inverse scenario *)

(** The raster of the scenario: centre [(200,200,200)], the eight border
    pixels [(10,10,10)], any alpha channel. *)
Definition scenario_raster (alpha : coord -> Z) : raster :=
  let d c : pixel := (10, 10, 10, alpha c) in
  let l c : pixel := (200, 200, 200, alpha c) in
  raster_of_rows [[d (0, 0); d (1, 0); d (2, 0)];
                  [d (0, 1); l (1, 1); d (2, 1)];
                  [d (0, 2); d (1, 2); d (2, 2)]].

(** Range [(0,0,0)..(20,20,20)], RGB, inverse. *)
Definition scenario_inverse : config :=
  {| lower_color := (0, 0, 0); upper_color := (20, 20, 20);
     inverse := true; use_hsv := false |}.

(** Mapping over a result, to state equations between runs. *)
#[global] Instance outcome_fmap : FMap outcome := fun A B f m =>
  match m with
  | Done a => Done (f a)
  | Raised e => Raised e
  | Timeout => Timeout
  end.

(** * Vocabulary of the further properties *)

(** ** The conversion on bytes *)

(** Checked on all 256 grey levels. *)
Definition grey_check (z : Z) : bool :=
  match rgb_to_hsv_opencv z z z with
  | Done (h, s, v) => (h =? 0) && (s =? 0) && (v =? z)
  | _ => false
  end.

(** The channel floats are ordered like the bytes. *)
Definition order_check (a b : Z) : bool :=
  Bool.eqb (PrimFloat.ltb (unit_channel a) (unit_channel b)) (a <? b) &&
  Bool.eqb (PrimFloat.eqb (unit_channel a) (unit_channel b)) (a =? b).

(** Saturation and value as floats depend on the largest and smallest
    channel only. *)
Definition saturation_float (mx mn : Z) : float :=
  if PrimFloat.eqb (unit_channel mn) (unit_channel mx) then PrimFloat.zero
  else PrimFloat.div (PrimFloat.sub (unit_channel mx) (unit_channel mn)) (unit_channel mx).

(** The exact saturation times 255, truncated. *)
Definition exact_saturation (mx mn : Z) : Z :=
  if mx =? 0 then 0 else 255 * (mx - mn) / mx.

Definition saturation_value_check (mx mn : Z) : bool :=
  match PyFloat.to_int (PrimFloat.mul (saturation_float mx mn) PyFloat.f255),
        PyFloat.to_int (PrimFloat.mul (unit_channel mx) PyFloat.f255) with
  | Done s, Done v =>
      (v =? mx) && (0 <=? s) &&
      (exact_saturation mx mn - 1 <=? s) && (s <=? exact_saturation mx mn)
  | _, _ => false
  end.

(** ** Rendering integers

    [decimal z] is the canonical decimal numeral of [z]: a minus sign if
    [z] is negative, then the digits without leading zeros. *)
Definition decimal (z : Z) : list ascii :=
  list_ascii_of_string (DecimalString.NilZero.string_of_int (Z.to_int z)).

(** The number of digits of the numeral of [z]. *)
Definition num_digits (z : Z) : Z := PyStr.count_digits (decimal z).

(** ["x,y"] and ["r,g,b"] as a user would type them. *)
Definition point_string (x y : Z) : String.string :=
  string_of_list_ascii (decimal x ++ ","%char :: decimal y).

Definition color_string (r g b : Z) : String.string :=
  string_of_list_ascii
    (decimal r ++ ","%char :: decimal g ++ ","%char :: decimal b).

(** The value of a digit sequence read left to right from [acc]. *)
Fixpoint uint_value (d : Decimal.uint) (acc : Z) : Z :=
  match d with
  | Decimal.Nil => acc
  | Decimal.D0 d => uint_value d (10 * acc)
  | Decimal.D1 d => uint_value d (10 * acc + 1)
  | Decimal.D2 d => uint_value d (10 * acc + 2)
  | Decimal.D3 d => uint_value d (10 * acc + 3)
  | Decimal.D4 d => uint_value d (10 * acc + 4)
  | Decimal.D5 d => uint_value d (10 * acc + 5)
  | Decimal.D6 d => uint_value d (10 * acc + 6)
  | Decimal.D7 d => uint_value d (10 * acc + 7)
  | Decimal.D8 d => uint_value d (10 * acc + 8)
  | Decimal.D9 d => uint_value d (10 * acc + 9)
  end.

(** Neither whitespace nor a comma. *)
Definition plain (c : ascii) : bool :=
  negb (PyStr.is_space c) && negb (Ascii.eqb c ","%char).

(** The commas of a string. *)
Definition commas (s : String.string) : nat :=
  length (filter (fun c => Ascii.eqb c "," = true) (list_ascii_of_string s)).

(** * Properties *)

(** ** The conversion never raises on bytes *)

Lemma hsv_finite_all :
  forallb (fun r => forallb (fun g => forallb (fun b => hsv_finite r g b)
     unit_channels) unit_channels) unit_channels = true.
Proof. vm_compute. reflexivity. Qed.

Lemma to_int_finite f :
  PrimFloat.is_finite f = true -> exists z, PyFloat.to_int f = Done z.
Proof.
  unfold PrimFloat.is_finite, PyFloat.to_int, Prim2SF.
  destruct (PrimFloat.is_nan f); [discriminate|].
  destruct (PrimFloat.is_zero f); [eauto|].
  destruct (PrimFloat.is_infinity f); [discriminate|].
  intros _. destruct (Z.frexp f) as [m e].
  destruct (shr_fexp _ _ _ _ _) as [shr e'].
  destruct (shr_m shr); eauto.
Qed.

Lemma unit_channel_In z : byte z = true -> In (unit_channel z) unit_channels.
Proof.
  intros Hz. unfold byte in Hz. apply list_elem_of_In, list_elem_of_fmap.
  exists z. split; [done|]. apply elem_of_seqZ. lia.
Qed.

Lemma rgb_to_hsv_opencv_total r g b :
  byte r = true -> byte g = true -> byte b = true ->
  exists c, rgb_to_hsv_opencv r g b = Done c.
Proof.
  intros Hr Hg Hb.
  pose proof hsv_finite_all as Hall.
  rewrite forallb_forall in Hall.
  specialize (Hall _ (unit_channel_In r Hr)). rewrite forallb_forall in Hall.
  specialize (Hall _ (unit_channel_In g Hg)). rewrite forallb_forall in Hall.
  specialize (Hall _ (unit_channel_In b Hb)).
  unfold hsv_finite in Hall. unfold rgb_to_hsv_opencv.
  destruct (colorsys_rgb_to_hsv _ _ _) as [[[h s] v]| |]; try discriminate.
  apply andb_prop in Hall as [Hall Hv]. apply andb_prop in Hall as [Hh Hs].
  destruct (to_int_finite _ Hh) as [h' Eh].
  destruct (to_int_finite _ Hs) as [s' Es].
  destruct (to_int_finite _ Hv) as [v' Ev].
  exists (h', s', v'). cbn. rewrite Eh. cbn. rewrite Es. cbn. rewrite Ev. done.
Qed.

Lemma is_background_total cfg p :
  byte_pixel p = true -> exists b, is_background cfg p = Done b.
Proof.
  destruct p as [[[r g] b] a]. unfold byte_pixel. intros Hp.
  apply andb_prop in Hp as [Hp _]. apply andb_prop in Hp as [Hp Hb].
  apply andb_prop in Hp as [Hr Hg].
  unfold is_background, is_within_bounds.
  destruct (use_hsv cfg).
  - destruct (rgb_to_hsv_opencv_total r g b) as [[[h s] v] E]; try done.
    rewrite E. cbn. destruct (lower_color cfg) as [[??]?], (upper_color cfg) as [[??]?].
    cbn. eauto.
  - destruct (lower_color cfg) as [[??]?], (upper_color cfg) as [[??]?]. cbn. eauto.
Qed.

(** ** The conversion *)

(** C3: on pure blue the code returns hue 119, while the standard hue of
    240 degrees halved is 120: the hue fraction is scaled by 179, not by
    180.  Saturation and value agree there. *)
Theorem hue_scaled_by_179 :
  rgb_to_hsv_opencv 0 0 255 = Done (119, 255, 255) /\
  hsv_as_specified 0 0 255 = (120, 255, 255).
Proof. split; vm_compute; reflexivity. Qed.

(** Float rounding also shows in the saturation: on [(45, 9, 9)] the exact
    saturation times 255 is 204, the floats give just under it. *)
Lemma saturation_rounds_down :
  rgb_to_hsv_opencv 45 9 9 = Done (0, 203, 45) /\
  hsv_as_specified 45 9 9 = (0, 204, 45).
Proof. split; vm_compute; reflexivity. Qed.

(** ** Colour strings *)

Lemma parse_color_components s r g b :
  color_components s = Done [r; g; b] ->
  parse_color s =
    if (0 <=? r) && (r <=? 255) && ((0 <=? g) && (g <=? 255) && ((0 <=? b) && (b <=? 255) && true))
    then Done (r, g, b) else Raised ValueError.
Proof. unfold parse_color. intros ->. reflexivity. Qed.

(** C4, as stated, fails: under HSV mode the hue 200 is accepted and
    [main] goes on to [process_image]. *)
Lemma hue_above_179_accepted :
  main strict_parse_args (hsv_command_line "200,0,0" "255,255,255")
  = ProcessImage "icon.png" (200, 0, 0) (255, 255, 255) false true [] "output.png" true.
Proof. vm_compute. reflexivity. Qed.

(** C4 (amended): in either mode, when the namespace the parser returns
    holds a lower or upper colour string with a component outside
    [0,255], [main] exits with a non-zero status without calling
    [process_image]; [parse_color] has no other range check, so
    components within [0,255], a hue above 179 under HSV mode included,
    are accepted. *)
Theorem color_range_check (parse_args : list String.string -> parse_result)
    (argv : list String.string) (args : arguments) :
  parse_args argv = Namespace args ->
  (forall r g b,
     color_components (arg_lower_color args) = Done [r; g; b] \/
     color_components (arg_upper_color args) = Done [r; g; b] ->
     ~ (0 <= r <= 255 /\ 0 <= g <= 255 /\ 0 <= b <= 255) ->
     exists status, main parse_args argv = SysExit status /\ status <> 0) /\
  (forall h s v h' s' v',
     color_components (arg_lower_color args) = Done [h; s; v] ->
     color_components (arg_upper_color args) = Done [h'; s'; v'] ->
     0 <= h <= 255 /\ 0 <= s <= 255 /\ 0 <= v <= 255 ->
     0 <= h' <= 255 /\ 0 <= s' <= 255 /\ 0 <= v' <= 255 ->
     arg_points args = [] ->
     main parse_args argv
     = ProcessImage (arg_input args) (h, s, v) (h', s', v')
         (arg_inverse args) (arg_flood_fill args) []
         (arg_output args) (arg_hsv args)).
Proof.
  intros Hargs. split.
  - intros r g b Hcomp Hout. exists 1. split; [|done]. unfold main. rewrite Hargs.
    assert ((0 <=? r) && (r <=? 255) &&
            ((0 <=? g) && (g <=? 255) && ((0 <=? b) && (b <=? 255) && true)) = false)
      as Hrange.
    { apply not_true_is_false. rewrite !andb_true_iff. lia. }
    destruct Hcomp as [Hl|Hu].
    + by rewrite (parse_color_components _ _ _ _ Hl), Hrange.
    + rewrite (parse_color_components _ _ _ _ Hu), Hrange.
      by destruct (parse_color (arg_lower_color args)).
  - intros h s v h' s' v' Hl Hu Hin Hin' Hpts. unfold main. rewrite Hargs.
    rewrite (parse_color_components _ _ _ _ Hl), (parse_color_components _ _ _ _ Hu), Hpts.
    assert (forall x y z, 0 <= x <= 255 /\ 0 <= y <= 255 /\ 0 <= z <= 255 ->
              (0 <=? x) && (x <=? 255) &&
              ((0 <=? y) && (y <=? 255) && ((0 <=? z) && (z <=? 255) && true)) = true)
      as Hok by (intros; rewrite !andb_true_iff; lia).
    by rewrite !Hok.
Qed.

Lemma color_range_check_witness :
  (exists status,
     main strict_parse_args (hsv_command_line "256,0,0" "255,255,255") = SysExit status /\
     status <> 0) /\
  main strict_parse_args (hsv_command_line "180,0,0" "255,255,255")
  = ProcessImage "icon.png" (180, 0, 0) (255, 255, 255) false true [] "output.png" true.
Proof.
  split.
  - apply (proj1 (color_range_check strict_parse_args
                    (hsv_command_line "256,0,0" "255,255,255")
                    (hsv_arguments "256,0,0" "255,255,255") eq_refl) 256 0 0).
    + left. vm_compute. reflexivity.
    + lia.
  - apply (proj2 (color_range_check strict_parse_args
                    (hsv_command_line "180,0,0" "255,255,255")
                    (hsv_arguments "180,0,0" "255,255,255") eq_refl)
             180 0 0 255 255 255).
    + vm_compute. reflexivity.
    + vm_compute. reflexivity.
    + lia.
    + lia.
    + reflexivity.
Defined.

(** ** Loops and coordinates *)

(** Loop rule for [for_each]: [P rest s] holds before the elements [rest]
    are processed. *)
Lemma for_each_ind {A S : Type} (body : A -> S -> outcome S)
    (P : list A -> S -> Prop) (l : list A) (s : S) :
  P l s ->
  (forall a rest s, P (a :: rest) s -> exists s', body a s = Done s' /\ P rest s') ->
  exists s', for_each body l s = Done s' /\ P [] s'.
Proof.
  intros HP Hstep. revert s HP.
  induction l as [|a l IH]; intros s HP; cbn.
  - eauto.
  - destruct (Hstep _ _ _ HP) as (s' & -> & HP'). cbn. auto.
Qed.

Lemma in_bounds_spec W H (c : coord) :
  in_bounds W H c = true <-> 0 <= c.1 < W /\ 0 <= c.2 < H.
Proof. unfold in_bounds. rewrite !andb_true_iff. lia. Qed.

Lemma elem_of_row_major W H (c : coord) :
  c ∈ row_major W H <-> in_bounds W H c = true.
Proof.
  rewrite in_bounds_spec. unfold row_major, range. rewrite list_elem_of_bind.
  split.
  - intros (y & Hc & Hy). apply list_elem_of_fmap in Hc as (x & -> & Hx).
    apply elem_of_seqZ in Hx, Hy. cbn. lia.
  - intros [Hx Hy]. exists c.2. split.
    + apply list_elem_of_fmap. exists c.1. split; [by destruct c|].
      apply elem_of_seqZ. lia.
    + apply elem_of_seqZ. lia.
Qed.

Lemma length_row_major W H :
  length (row_major W H) = (Z.to_nat W * Z.to_nat H)%nat.
Proof.
  unfold row_major, range.
  generalize (seqZ 0 H) (length_seqZ 0 H). intros l <-.
  induction l as [|y l IH]; [cbn; lia|].
  rewrite bind_cons, length_app, length_fmap, length_seqZ. rewrite IH. cbn. lia.
Qed.

(** A duplicate-free list of in-range coordinates has at most
    [width * height] elements. *)
Lemma NoDup_in_bounds_length W H (l : list coord) :
  NoDup l -> (forall c, c ∈ l -> in_bounds W H c = true) ->
  (length l <= Z.to_nat W * Z.to_nat H)%nat.
Proof.
  intros Hnd Hin. rewrite <- length_row_major.
  apply submseteq_length, NoDup_submseteq; [done|].
  intros c Hc. apply elem_of_row_major. auto.
Qed.

Lemma extends_refl st : extends st st.
Proof. split; auto. Qed.

Lemma extends_trans st1 st2 st3 : extends st1 st2 -> extends st2 st3 -> extends st1 st3.
Proof.
  intros [v1 s1 n1 c1] [v2 s2 n2 c2]. split; [auto..| |congruence].
  intros k Hk. destruct (n2 k Hk) as [Hk'|]; [|auto].
  destruct (n1 k Hk'); auto.
Qed.

Section flood_proofs.
Context (wl : Worklist) {laws : WorklistLaws wl}.
Variable cfg : config.
Variables W H : Z.
Variable orig : gmap coord pixel.
Variable manual : list coord.
Hypothesis HW : 0 < W.
Hypothesis HH : 0 < H.
Hypothesis Horig : forall c, in_bounds W H c = true ->
  exists p b, orig !! c = Some p /\ is_background cfg p = Done b.

Local Abbreviation inv := (flood_inv cfg W H orig manual).
Local Abbreviation conn := (connected cfg W H orig manual).
Local Abbreviation bg := (matches_background cfg orig).
Local Abbreviation closure := (closure_inv cfg W H orig).

Lemma elem_of_wl_append l c k : k ∈ wl_append l c <-> k = c \/ k ∈ l.
Proof. rewrite (wl_append_perm l c). apply elem_of_cons. Qed.

Lemma push_extends c st : extends st (push wl c st).
Proof.
  split; cbn.
  - set_solver.
  - intros k Hk. apply elem_of_wl_append. auto.
  - intros k Hk. rewrite elem_of_wl_append. set_solver.
  - done.
Qed.

Lemma push_inv c st :
  inv st -> in_bounds W H c = true -> c ∉ st_visited st -> conn c ->
  inv (push wl c st).
Proof.
  intros [Hb Hs Hp Hnd Hnds Hc Hsd Hpx] Hin Hnv Hconn.
  assert (c ∉ st_stack st) as Hns by (intros ?; apply Hnv; auto).
  split; cbn.
  - intros k [Hk|Hk]%elem_of_union; [|by auto].
    apply elem_of_singleton in Hk. by subst.
  - intros k [->|Hk]%elem_of_wl_append; set_solver.
  - intros k. rewrite elem_of_union, elem_of_singleton, elem_of_app, list_elem_of_singleton.
    rewrite Hp. tauto.
  - apply NoDup_app. split; [done|]. split; [|apply NoDup_singleton].
    intros k Hk Hkc. apply list_elem_of_singleton in Hkc. subst.
    by apply Hnv, Hp.
  - rewrite (wl_append_perm _ c). apply NoDup_cons. auto.
  - rewrite (wl_append_perm _ c), length_app. cbn. lia.
  - intros k [Hk|Hk]%elem_of_union; [|by auto].
    apply elem_of_singleton in Hk. by subst.
  - intros k. rewrite Hpx.
    destruct (decide (k = c)) as [->|Hne].
    + rewrite !decide_False; [done| |tauto].
      intros [_ Hk]. apply Hk, elem_of_wl_append. auto.
    + apply decide_ext. rewrite elem_of_wl_append. set_solver.
Qed.

(** An unvisited in-range coordinate still holds its original pixel. *)
Lemma getpixel_unvisited c st :
  inv st -> in_bounds W H c = true -> c ∉ st_visited st ->
  exists p b, getpixel W H (st_pixels st) c = Done p /\ orig !! c = Some p /\
              is_background cfg p = Done b.
Proof.
  intros Hinv Hin Hnv. destruct (Horig c Hin) as (p & b & Hp & Hb).
  exists p, b. split; [|done]. unfold getpixel. rewrite Hin.
  rewrite (inv_pixels _ _ _ _ _ _ Hinv), decide_False, Hp; [done|tauto].
Qed.

Lemma push_if_background_inv c st :
  inv st -> in_bounds W H c = true -> (bg c -> conn c) ->
  exists st', push_if_background wl cfg W H c st = Done st' /\
    inv st' /\ extends st st' /\ (bg c -> c ∈ st_visited st').
Proof.
  intros Hinv Hin Hconn. unfold push_if_background.
  destruct (decide (c ∈ st_visited st)) as [Hv|Hnv].
  - exists st. auto using extends_refl.
  - destruct (getpixel_unvisited c st Hinv Hin Hnv) as (p & b & -> & Hp & Hb).
    cbn. rewrite Hb. cbn. destruct b.
    + exists (push wl c st). split; [done|]. split.
      * apply push_inv; auto. apply Hconn. by exists p.
      * split; [apply push_extends|]. intros _. cbn. set_solver.
    + exists st. split; [done|]. split; [done|]. split; [apply extends_refl|].
      intros (p' & Hp' & Hb'). congruence.
Qed.

(** The two border loops enumerate exactly the border. *)
Lemma elem_of_border (c : coord) :
  c ∈ border_rows W H ++ border_cols W H <-> on_border W H c = true.
Proof.
  unfold on_border, border_rows, border_cols, range, range2.
  rewrite andb_true_iff, !orb_true_iff, in_bounds_spec, elem_of_app.
  rewrite !list_elem_of_bind. destruct c as [x y]. cbn. split.
  - intros [(x' & Hc & Hx)|(y' & Hc & Hy)].
    + apply elem_of_seqZ in Hx.
      apply elem_of_cons in Hc as [Hc|Hc%list_elem_of_singleton];
        injection Hc as -> ->; lia.
    + apply elem_of_seqZ in Hy.
      apply elem_of_cons in Hc as [Hc|Hc%list_elem_of_singleton];
        injection Hc as -> ->; lia.
  - intros [[Hx Hy] Hb].
    destruct (decide (y = 0 \/ y = H - 1)) as [Hrow|Hrow].
    + left. exists x. rewrite elem_of_seqZ. split; [|lia].
      destruct Hrow as [->| ->]; set_solver.
    + right. exists y. rewrite elem_of_seqZ. split; [|lia].
      assert (x = 0 \/ x = W - 1) as [->| ->] by lia; set_solver.
Qed.

Lemma on_border_in_bounds c : on_border W H c = true -> in_bounds W H c = true.
Proof. unfold on_border. by intros [? _]%andb_prop. Qed.

(** *** Seeding *)

Lemma extends_all_pending st st' : extends st st' -> all_pending st -> all_pending st'.
Proof.
  intros [_ Hs Hn _] Hall k Hk. destruct (Hn k Hk); auto.
Qed.

Lemma seed_border_loop l st :
  inv st -> (forall a, a ∈ l -> on_border W H a = true) ->
  exists st', for_each (push_if_background wl cfg W H) l st = Done st' /\
    inv st' /\ extends st st' /\
    (forall c, c ∈ l -> bg c -> c ∈ st_visited st').
Proof.
  intros Hinv Hl.
  destruct (for_each_ind (push_if_background wl cfg W H)
    (fun rest s => inv s /\ extends st s /\
       (forall a, a ∈ rest -> on_border W H a = true) /\
       (forall c, c ∈ l -> bg c -> c ∈ st_visited s \/ c ∈ rest)) l st)
    as (st' & Hrun & Hi & He & _ & Hseed).
  - auto using extends_refl.
  - intros a rest s (Hi & He & Hb & Hseed).
    assert (on_border W H a = true) as Ha by (apply Hb; left).
    destruct (push_if_background_inv a s Hi (on_border_in_bounds a Ha))
      as (s' & Hrun & Hi' & He' & Hbg).
    { intros. by apply connected_border. }
    exists s'. split; [done|]. split; [done|]. split; [by eapply extends_trans|].
    split; [intros; apply Hb; by right|].
    intros c Hc Hbgc. destruct (Hseed c Hc Hbgc) as [Hv|Hr].
    + left. by apply (ext_visited _ _ He').
    + apply elem_of_cons in Hr as [->|Hr]; auto.
  - exists st'. split; [done|]. split; [done|]. split; [done|].
    intros c Hc Hbgc. destruct (Hseed c Hc Hbgc) as [|Hnil]; [done|].
    by apply not_elem_of_nil in Hnil.
Qed.

Lemma push_manual_inv c st :
  inv st -> c ∈ manual ->
  exists st', push_manual wl W H c st = Done st' /\
    inv st' /\ extends st st' /\ (in_bounds W H c = true -> c ∈ st_visited st').
Proof.
  intros Hinv Hc. unfold push_manual. eexists. split; [done|].
  destruct (in_bounds W H c) eqn:Hin.
  - destruct (decide (c ∈ st_visited st)).
    + auto using extends_refl.
    + split; [|split; [apply push_extends|cbn; set_solver]].
      apply push_inv; auto. by apply connected_manual.
  - split; [done|]. split; [apply extends_refl|done].
Qed.

Lemma seed_manual_loop st :
  inv st ->
  exists st', for_each (push_manual wl W H) manual st = Done st' /\
    inv st' /\ extends st st' /\
    (forall c, c ∈ manual -> in_bounds W H c = true -> c ∈ st_visited st').
Proof.
  intros Hinv.
  destruct (for_each_ind (push_manual wl W H)
    (fun rest s => inv s /\ extends st s /\
       (forall a, a ∈ rest -> a ∈ manual) /\
       (forall c, c ∈ manual -> in_bounds W H c = true ->
                  c ∈ st_visited s \/ c ∈ rest)) manual st)
    as (st' & Hrun & Hi & He & _ & Hseed).
  - auto using extends_refl.
  - intros a rest s (Hi & He & Hm & Hseed).
    destruct (push_manual_inv a s Hi) as (s' & Hrun & Hi' & He' & Hv).
    { apply Hm. left. }
    exists s'. split; [done|]. split; [done|]. split; [by eapply extends_trans|].
    split; [intros; apply Hm; by right|].
    intros c Hc Hin. destruct (Hseed c Hc Hin) as [Hvc|Hr].
    + left. by apply (ext_visited _ _ He').
    + apply elem_of_cons in Hr as [->|Hr]; auto.
  - exists st'. split; [done|]. split; [done|]. split; [done|].
    intros c Hc Hin. destruct (Hseed c Hc Hin) as [|Hnil]; [done|].
    by apply not_elem_of_nil in Hnil.
Qed.

Lemma initial_inv : inv (initial_state orig).
Proof.
  split; cbn.
  - set_solver.
  - set_solver.
  - intros k. rewrite elem_of_nil. set_solver.
  - apply NoDup_nil_2.
  - apply NoDup_nil_2.
  - done.
  - set_solver.
  - intros k. rewrite decide_False; set_solver.
Qed.

Lemma flood_seed_ok :
  exists st, flood_seed wl cfg W H manual orig = Done st /\
    inv st /\ all_pending st /\ st_count st = 0%nat /\
    seeded cfg W H orig manual st.
Proof.
  unfold flood_seed. fold (initial_state orig).
  destruct (seed_border_loop (border_rows W H) (initial_state orig) initial_inv)
    as (st1 & -> & Hi1 & He1 & Hs1).
  { intros a Ha. apply elem_of_border, elem_of_app. auto. }
  cbn.
  destruct (seed_border_loop (border_cols W H) st1 Hi1)
    as (st2 & -> & Hi2 & He2 & Hs2).
  { intros a Ha. apply elem_of_border, elem_of_app. auto. }
  cbn.
  destruct (seed_manual_loop st2 Hi2) as (st3 & -> & Hi3 & He3 & Hs3).
  exists st3. split; [done|]. split; [done|].
  assert (extends (initial_state orig) st3) as He
    by eauto using extends_trans.
  split; [|split].
  - apply (extends_all_pending _ _ He). intros k Hk. cbn in Hk. set_solver.
  - by rewrite (ext_count _ _ He).
  - split; [|done]. intros c Hc Hbg.
    apply elem_of_border, elem_of_app in Hc as [Hc|Hc].
    + apply (ext_visited _ _ He3), (ext_visited _ _ He2). auto.
    + apply (ext_visited _ _ He3). auto.
Qed.

(** *** The worklist loop *)

Lemma visit_neighbour_inv c n pend st :
  inv st -> c ∈ st_visited st -> n ∈ neighbours c -> closure c (n :: pend) st ->
  exists st', visit_neighbour wl cfg W H n st = Done st' /\
    inv st' /\ extends st st' /\ closure c pend st'.
Proof.
  intros Hinv Hc Hn Hcl. unfold visit_neighbour.
  destruct (in_bounds W H n) eqn:Hin.
  - destruct (push_if_background_inv n st Hinv Hin) as (st' & -> & Hi' & He' & Hbg).
    { intros Hb. eapply connected_step; eauto. by apply (inv_sound _ _ _ _ _ _ Hinv). }
    exists st'. split; [done|]. split; [done|]. split; [done|].
    intros k m Hk Hks Hm Hmin Hmbg.
    destruct (ext_new _ _ He' k Hk) as [Hk'|]; [|done].
    destruct (Hcl k m Hk') as [Hv|[-> Hp]]; auto.
    + intros Hs. by apply Hks, (ext_stack _ _ He').
    + left. by apply (ext_visited _ _ He').
    + apply elem_of_cons in Hp as [->|Hp]; auto.
  - exists st. split; [done|]. split; [done|]. split; [apply extends_refl|].
    intros k m Hk Hks Hm Hmin Hmbg.
    destruct (Hcl k m) as [Hv|[-> Hp]]; auto.
    apply elem_of_cons in Hp as [->|Hp]; [congruence|auto].
Qed.

Lemma flood_iter_inv c0 c rest st :
  inv st -> closure c0 [] st -> wl_pop (st_stack st) = Some (c, rest) ->
  exists st', flood_iter wl cfg W H c rest st = Done st' /\
    inv st' /\ closure c [] st' /\ st_count st' = S (st_count st) /\
    (forall k, k ∈ st_visited st -> k ∈ st_visited st').
Proof.
  intros Hinv Hcl Hpop. apply wl_pop_Some in Hpop.
  pose proof Hinv as [Hb Hs Hp Hnd Hnds Hcnt Hsd Hpx].
  assert (c ∈ st_visited st) as Hcv by (apply Hs; rewrite Hpop; left).
  rewrite Hpop in Hnds. apply NoDup_cons in Hnds as [Hcr Hndr].
  unfold flood_iter, putpixel. rewrite (Hb c Hcv). cbn.
  set (st1 := {| st_pixels := <[c:=transparent]> (st_pixels st);
                 st_visited := st_visited st; st_stack := rest;
                 st_count := S (st_count st); st_pushed := st_pushed st |}).
  assert (inv st1) as Hinv1.
  { split; cbn; auto.
    - intros k Hk. apply Hs. rewrite Hpop. by right.
    - rewrite Hpop in Hcnt. cbn in Hcnt. lia.
    - intros k. destruct (decide (k = c)) as [->|Hne].
      + rewrite lookup_insert_eq, decide_True; done.
      + rewrite lookup_insert_ne, Hpx by done. apply decide_ext.
        rewrite Hpop, elem_of_cons. tauto. }
  assert (closure c (neighbours c) st1) as Hcl1.
  { intros k n Hk Hks Hn Hin Hbg. cbn in Hk, Hks.
    destruct (decide (k = c)) as [->|Hne]; [auto|].
    destruct (Hcl k n) as [|[_ Hnil]]; auto.
    - rewrite Hpop, elem_of_cons. tauto.
    - by apply not_elem_of_nil in Hnil. }
  destruct (for_each_ind (visit_neighbour wl cfg W H)
    (fun pend s => inv s /\ extends st1 s /\ closure c pend s /\
                   (forall n, n ∈ pend -> n ∈ neighbours c))
    (neighbours c) st1) as (st' & Hrun & Hi' & He' & Hcl' & _).
  - auto using extends_refl.
  - intros n pend s (Hi & He & Hc & Hpend).
    destruct (visit_neighbour_inv c n pend s) as (s' & Hrun & Hi' & He' & Hcl'); auto.
    { by apply (ext_visited _ _ He). }
    { apply Hpend. left. }
    exists s'. split; [done|]. split; [done|]. split; [by eapply extends_trans|].
    split; [done|]. intros; apply Hpend; by right.
  - exists st'. split; [done|]. split; [done|]. split; [done|].
    split; [by rewrite (ext_count _ _ He')|].
    intros k Hk. by apply (ext_visited _ _ He').
Qed.

Lemma pushed_bound st : inv st -> (length (st_pushed st) <= Z.to_nat W * Z.to_nat H)%nat.
Proof.
  intros Hinv. apply NoDup_in_bounds_length; [apply Hinv|].
  intros c Hc. by apply (inv_bounds _ _ _ _ _ _ Hinv), (inv_pushed _ _ _ _ _ _ Hinv).
Qed.

(** The loop finishes as soon as the fuel covers the iterations that can
    still happen: at most [W * H] pops in total, [st_count] of them done. *)
Lemma flood_loop_inv fuel : forall c0 st,
  inv st -> closure c0 [] st ->
  (Z.to_nat W * Z.to_nat H <= fuel + st_count st)%nat ->
  exists c1 st', flood_loop wl cfg W H fuel st = Done st' /\
    inv st' /\ closure c1 [] st' /\ st_stack st' = [] /\
    (forall k, k ∈ st_visited st -> k ∈ st_visited st').
Proof.
  induction fuel as [|fuel IH]; intros c0 st Hinv Hcl Hfuel.
  - cbn. destruct (wl_pop (st_stack st)) as [[c rest]|] eqn:Hpop.
    + exfalso. apply wl_pop_Some in Hpop.
      pose proof (pushed_bound st Hinv) as Hlen.
      pose proof (inv_count _ _ _ _ _ _ Hinv) as Hcnt.
      rewrite Hpop in Hcnt. cbn in Hcnt. lia.
    + exists c0, st. apply wl_pop_None in Hpop. auto.
  - cbn. destruct (wl_pop (st_stack st)) as [[c rest]|] eqn:Hpop.
    + destruct (flood_iter_inv c0 c rest st Hinv Hcl Hpop)
        as (st1 & -> & Hi1 & Hcl1 & Hcnt1 & Hmono1).
      cbn. destruct (IH c st1 Hi1 Hcl1) as (c1 & st' & Hrun & Hi' & Hcl' & Hnil & Hmono).
      { lia. }
      exists c1, st'. auto 10.
    + exists c0, st. apply wl_pop_None in Hpop. auto.
Qed.

(** *** The whole flood branch *)

Lemma flood_run_ok fuel :
  (Z.to_nat W * Z.to_nat H <= fuel)%nat ->
  exists st, flood_run wl cfg W H fuel manual orig = Done st /\ flood_spec cfg W H orig manual st.
Proof.
  intros Hfuel. unfold flood_run.
  destruct flood_seed_ok as (st0 & -> & Hi0 & Hall & Hc0 & Hborder & Hmanual).
  cbn. destruct (flood_loop_inv fuel (0, 0) st0 Hi0) as (c1 & st & Hrun & Hi & Hcl & Hnil & Hmono).
  { intros k n Hk Hks. by apply Hall in Hk. }
  { lia. }
  exists st. split; [done|].
  pose proof Hi as [Hb Hs Hp Hnd Hnds Hcnt Hsd Hpx].
  rewrite Hnil in Hcnt. cbn in Hcnt.
  split; auto.
  - intros k. split; [apply Hsd|].
    induction 1 as [c Hc Hbg|c Hc Hin|c n Hc IHc Hn Hin Hbg].
    + apply Hmono. auto.
    + apply Hmono. auto.
    + destruct (Hcl c n) as [|[_ Hnil']]; auto.
      * rewrite Hnil. apply not_elem_of_nil.
      * by apply not_elem_of_nil in Hnil'.
  - intros k. rewrite Hpx. apply decide_ext. rewrite Hnil.
    pose proof (not_elem_of_nil k). tauto.
  - intros k. by rewrite Hp.
  - lia.
  - pose proof (pushed_bound st Hi). lia.
  - intros k Hk. by apply Hb, Hp.
Qed.

End flood_proofs.

(** ** The two disciplines are worklists *)

#[global] Instance lifo_laws : WorklistLaws lifo.
Proof.
  split; cbn; unfold lifo_pop.
  - intros l. destruct (rev l) eqn:E; [|done].
    intros _. by rewrite <- (rev_involutive l), E.
  - intros l c l'. destruct (rev l) as [|c' r] eqn:E; [done|].
    intros [= -> <-]. rewrite <- (rev_involutive l), E. cbn.
    by rewrite Permutation_app_comm.
  - intros l c. by rewrite Permutation_app_comm.
Qed.

#[global] Instance fifo_laws : WorklistLaws fifo.
Proof.
  split; cbn; unfold fifo_pop.
  - by intros [|??].
  - intros [|c' r] c l'; [done|]. by intros [= -> ->].
  - intros l c. by rewrite Permutation_app_comm.
Qed.

(** ** Well-formed rasters *)

Lemma well_formed_spec img :
  well_formed img = true ->
  0 < width img /\ 0 < height img /\
  forall c, in_bounds (width img) (height img) c = true ->
    exists p, pixels img !! c = Some p /\ byte_pixel p = true.
Proof.
  unfold well_formed. rewrite !andb_true_iff, forallb_forall.
  intros [[HW HH] Hpx]. split; [lia|]. split; [lia|].
  intros c Hc. apply elem_of_row_major, list_elem_of_In, Hpx in Hc.
  destruct (pixels img !! c) as [p|]; [eauto|done].
Qed.

Lemma well_formed_classified img cfg :
  well_formed img = true ->
  forall c, in_bounds (width img) (height img) c = true ->
    exists p b, pixels img !! c = Some p /\ is_background cfg p = Done b.
Proof.
  intros (_ & _ & Hpx)%well_formed_spec c Hc.
  destruct (Hpx c Hc) as (p & Hp & Hbyte).
  destruct (is_background_total cfg p Hbyte) as [b Hb]. eauto.
Qed.

Lemma fuel_enough W H : 0 < W -> 0 < H ->
  (Z.to_nat W * Z.to_nat H <= Z.to_nat (W * H))%nat.
Proof. intros. rewrite Z2Nat.inj_mul; lia. Qed.

(** The flood branch of [process_image_with] on a well-formed raster. *)
Lemma process_flood_ok (wl : Worklist) `{!WorklistLaws wl} img cfg manual :
  well_formed img = true ->
  exists st,
    process_image_with wl img cfg true manual
      = Done (Raster (width img) (height img) (st_pixels st), st_count st) /\
    flood_run wl cfg (width img) (height img)
      (Z.to_nat (width img * height img)) manual (pixels img) = Done st /\
    flood_spec cfg (width img) (height img) (pixels img) manual st.
Proof.
  intros Hwf. pose proof (well_formed_spec img Hwf) as (HW & HH & _).
  destruct (flood_run_ok wl cfg (width img) (height img) (pixels img) manual
              HW HH (well_formed_classified img cfg Hwf)
              (Z.to_nat (width img * height img))) as (st & Hrun & Hspec).
  { by apply fuel_enough. }
  exists st. split; [|done]. unfold process_image_with.
  replace (0 <? width img) with true by lia.
  replace (0 <? height img) with true by lia.
  cbn. by rewrite Hrun.
Qed.

Lemma connectedb_spec img cfg manual c :
  well_formed img = true ->
  connected cfg (width img) (height img) (pixels img) manual c
  <-> connectedb cfg img manual c = true.
Proof.
  intros Hwf. destruct (process_flood_ok lifo img cfg manual Hwf) as (st & _ & Hrun & Hspec).
  unfold connectedb. rewrite Hrun, bool_decide_eq_true.
  symmetry. apply (spec_visited _ _ _ _ _ _ Hspec).
Qed.

Lemma flood_spec_agree cfg W H orig manual st1 st2 :
  flood_spec cfg W H orig manual st1 -> flood_spec cfg W H orig manual st2 ->
  st_pixels st1 = st_pixels st2 /\ st_count st1 = st_count st2.
Proof.
  intros S1 S2.
  assert (forall k, k ∈ st_visited st1 <-> k ∈ st_visited st2) as Hv.
  { intros k. by rewrite (spec_visited _ _ _ _ _ _ S1), (spec_visited _ _ _ _ _ _ S2). }
  split.
  - apply map_eq. intros k.
    rewrite (spec_pixels _ _ _ _ _ _ S1), (spec_pixels _ _ _ _ _ _ S2).
    apply decide_ext, Hv.
  - rewrite (spec_count _ _ _ _ _ _ S1), (spec_count _ _ _ _ _ _ S2).
    apply Permutation_length, NoDup_Permutation.
    + apply S1.
    + apply S2.
    + intros k. by rewrite (spec_pushed _ _ _ _ _ _ S1), (spec_pushed _ _ _ _ _ _ S2).
Qed.

(** ** Flood mode: main results *)

(** C7: in flood mode no coordinate is appended to the worklist twice, and
    the loop ends within [width * height] pop iterations: the run with that
    much fuel (one unit per pop) finishes with an empty worklist, its push
    history has no duplicate and stays inside the grid, and the number of
    pops (the count) is at most [width * height]. *)
Theorem flood_pushes_once_and_terminates img cfg manual :
  well_formed img = true ->
  exists st,
    flood_run lifo cfg (width img) (height img)
      (Z.to_nat (width img * height img)) manual (pixels img) = Done st /\
    st_stack st = [] /\
    NoDup (st_pushed st) /\
    (forall c, c ∈ st_pushed st -> in_bounds (width img) (height img) c = true) /\
    Z.of_nat (st_count st) <= width img * height img.
Proof.
  intros Hwf. pose proof (well_formed_spec img Hwf) as (HW & HH & _).
  destruct (process_flood_ok lifo img cfg manual Hwf) as (st & _ & Hrun & Hspec).
  exists st. split; [done|]. split; [apply Hspec|]. split; [apply Hspec|].
  split; [apply Hspec|].
  pose proof (spec_bound _ _ _ _ _ _ Hspec). nia.
Qed.

Lemma flood_pushes_once_and_terminates_witness :
  exists st,
    flood_run lifo dark_is_background 3 3 9
      [(1, 1); (1, 1); (7, 7)] (pixels dark_ring) = Done st /\
    st_stack st = [] /\ NoDup (st_pushed st) /\
    (forall c, c ∈ st_pushed st -> in_bounds 3 3 c = true) /\
    Z.of_nat (st_count st) <= 9.
Proof.
  apply (flood_pushes_once_and_terminates dark_ring dark_is_background
           [(1, 1); (1, 1); (7, 7)]).
  vm_compute. reflexivity.
Defined.

(** C6: in flood mode a background-matching pixel that is not connected to
    a background-matching border pixel or to a valid manual point keeps its
    original value. *)
Theorem enclosed_background_untouched img cfg manual c :
  well_formed img = true ->
  in_bounds (width img) (height img) c = true ->
  matches_background cfg (pixels img) c ->
  ~ connected cfg (width img) (height img) (pixels img) manual c ->
  exists img' n,
    process_image img cfg true manual = Done (img', n) /\
    pixels img' !! c = pixels img !! c.
Proof.
  intros Hwf Hin Hbg Hnc.
  destruct (process_flood_ok lifo img cfg manual Hwf) as (st & Hrun & _ & Hspec).
  eexists _, _. split; [exact Hrun|]. cbn.
  rewrite (spec_pixels _ _ _ _ _ _ Hspec), decide_False; [done|].
  by rewrite (spec_visited _ _ _ _ _ _ Hspec).
Qed.

Lemma enclosed_background_untouched_witness :
  exists img' n,
    process_image light_ring dark_is_background true [] = Done (img', n) /\
    pixels img' !! (1, 1) = pixels light_ring !! (1, 1).
Proof.
  apply enclosed_background_untouched.
  - vm_compute. reflexivity.
  - vm_compute. reflexivity.
  - exists dark. split; vm_compute; reflexivity.
  - rewrite connectedb_spec by (vm_compute; reflexivity).
    vm_compute. discriminate.
Defined.

(** C9: in flood mode the stack (as in the code) and a queue give the same
    final raster and the same count. *)
Theorem lifo_fifo_agree img cfg manual :
  well_formed img = true ->
  exists r,
    process_image_with lifo img cfg true manual = Done r /\
    process_image_with fifo img cfg true manual = Done r.
Proof.
  intros Hwf.
  destruct (process_flood_ok lifo img cfg manual Hwf) as (st1 & Hrun1 & _ & S1).
  destruct (process_flood_ok fifo img cfg manual Hwf) as (st2 & Hrun2 & _ & S2).
  destruct (flood_spec_agree _ _ _ _ _ _ _ S1 S2) as [Hpx Hcnt].
  eexists. split; [exact Hrun1|]. by rewrite Hrun2, Hpx, Hcnt.
Qed.

Lemma lifo_fifo_agree_witness :
  exists r,
    process_image_with lifo dark_ring dark_is_background true [(1, 1)] = Done r /\
    process_image_with fifo dark_ring dark_is_background true [(1, 1)] = Done r.
Proof.
  apply lifo_fifo_agree. vm_compute. reflexivity.
Defined.

(** ** Non-flood mode *)

Lemma NoDup_row_major W H : NoDup (row_major W H).
Proof.
  unfold row_major, range. apply NoDup_bind.
  - intros y1 y2 c _ _ (x1 & -> & _)%list_elem_of_fmap (x2 & [= _ ->] & _)%list_elem_of_fmap.
    done.
  - intros y _. apply NoDup_fmap_2; [|apply NoDup_seqZ].
    intros x1 x2 [= ->]. done.
  - apply NoDup_seqZ.
Qed.

Lemma is_background_transparent cfg : exists b, is_background cfg transparent = Done b.
Proof. by apply is_background_total. Qed.

Section scan_proofs.
Variable cfg : config.
Variables W H : Z.
Variable orig : gmap coord pixel.
Variable manual : list coord.
Hypothesis Horig : forall c, in_bounds W H c = true ->
  exists p b, orig !! c = Some p /\ is_background cfg p = Done b.

Lemma erase_manual_eq (c : coord) (s : gmap coord pixel * nat) :
  erase_manual W H c s
  = Done (if in_bounds W H c then (<[c:=transparent]> s.1, S s.2) else s).
Proof. unfold erase_manual, putpixel. by destruct (in_bounds W H c). Qed.

Lemma erase_if_background_eq (c : coord) (p : pixel) (b : bool) (s : gmap coord pixel * nat) :
  in_bounds W H c = true -> s.1 !! c = Some p -> is_background cfg p = Done b ->
  erase_if_background cfg W H c s
  = Done (if b then (<[c:=transparent]> s.1, S s.2) else s).
Proof.
  intros Hin Hp Hb. unfold erase_if_background, getpixel, putpixel.
  rewrite Hin, Hp. cbn. rewrite Hb. cbn. by destruct b.
Qed.

Lemma manual_pass_ok l : forall px n,
  exists px', for_each (erase_manual W H) l (px, n)
                = Done (px', (n + length (valid_points W H l))%nat) /\
    forall k, px' !! k = after_manual W H l px k.
Proof.
  unfold valid_points, after_manual.
  induction l as [|a l IH]; intros px n.
  - exists px. cbn. split; [f_equal; f_equal; lia|].
    intros k. rewrite decide_False; [done|]. intros [Hk _]. by apply not_elem_of_nil in Hk.
  - cbn [for_each]. rewrite erase_manual_eq. cbn [fst snd mbind outcome_bind].
    destruct (in_bounds W H a) eqn:Ha.
    + destruct (IH (<[a:=transparent]> px) (S n)) as (px' & -> & Hpx').
      exists px'. split.
      * rewrite filter_cons_True by done. cbn. f_equal. f_equal. lia.
      * intros k. rewrite Hpx'. destruct (decide (k = a)) as [->|Hne].
        -- rewrite lookup_insert_eq. rewrite (decide_True (P := _ ∈ a :: l /\ _)).
           ++ by destruct (decide _).
           ++ split; [left|done].
        -- rewrite lookup_insert_ne by done. apply decide_ext.
           rewrite elem_of_cons. naive_solver.
    + destruct (IH px n) as (px' & -> & Hpx').
      exists px'. split.
      * rewrite filter_cons_False by congruence. done.
      * intros k. rewrite Hpx'. apply decide_ext. rewrite elem_of_cons.
        split; [naive_solver|]. intros [[->|?] ?]; [congruence|done].
Qed.

(** The scan over a duplicate-free list [l] of in-range coordinates, from
    pixels [px] that agree on [l] with the reference [px1]. *)
Lemma scan_pass_ok (px1 : coord -> option pixel) l : forall px n,
  NoDup l ->
  (forall c, c ∈ l -> in_bounds W H c = true /\ px !! c = px1 c /\
     exists p b, px1 c = Some p /\ is_background cfg p = Done b) ->
  let hit c := match px1 c with Some p => bgb cfg p | None => false end in
  exists px', for_each (erase_if_background cfg W H) l (px, n)
                = Done (px', (n + length (filter (fun c => hit c = true) l))%nat) /\
    forall k, px' !! k =
      if decide (k ∈ l /\ hit k = true) then Some transparent else px !! k.
Proof.
  intros px n Hnd Hl hit. revert px n Hnd Hl.
  induction l as [|a l IH]; intros px n Hnd Hl.
  - exists px. cbn. split; [f_equal; f_equal; lia|].
    intros k. rewrite decide_False; [done|]. intros [Hk _]. by apply not_elem_of_nil in Hk.
  - apply NoDup_cons in Hnd as [Ha Hnd].
    destruct (Hl a) as (Hin & Hpa & p & b & Hp & Hb); [left|].
    assert (hit a = b) as Hhit by (unfold hit, bgb; by rewrite Hp, Hb).
    cbn [for_each]. rewrite (erase_if_background_eq a p b) by (cbn; congruence).
    cbn [fst snd mbind outcome_bind]. destruct b.
    + destruct (IH (<[a:=transparent]> px) (S n) Hnd) as (px' & -> & Hpx').
      { intros c Hc. destruct (Hl c) as (? & ? & ?); [by right|].
        rewrite lookup_insert_ne by (intros ->; done). done. }
      exists px'. split.
      * rewrite filter_cons_True by done. cbn. f_equal. f_equal. lia.
      * intros k. rewrite Hpx'. destruct (decide (k = a)) as [->|Hne].
        -- rewrite lookup_insert_eq. rewrite (decide_True (P := _ ∈ a :: l /\ _)).
           ++ by destruct (decide _).
           ++ split; [left|done].
        -- rewrite lookup_insert_ne by done. apply decide_ext.
           rewrite elem_of_cons. naive_solver.
    + destruct (IH px n Hnd) as (px' & -> & Hpx').
      { intros c Hc. apply Hl. by right. }
      exists px'. split.
      * rewrite filter_cons_False by congruence. done.
      * intros k. rewrite Hpx'. apply decide_ext. rewrite elem_of_cons.
        split; [naive_solver|]. intros [[->|?] ?]; [congruence|done].
Qed.

Lemma after_manual_classified c :
  in_bounds W H c = true ->
  exists p b, after_manual W H manual orig c = Some p /\ is_background cfg p = Done b.
Proof.
  intros Hin. unfold after_manual. destruct (decide _).
  - destruct (is_background_transparent cfg) as [b Hb]. eauto.
  - auto.
Qed.

Lemma scan_run_ok :
  exists px',
    scan_run cfg W H manual orig
      = Done (px', (length (valid_points W H manual)
                    + length (scan_hits cfg W H manual orig))%nat) /\
    forall k, px' !! k = after_manual W H manual orig k \/ px' !! k = Some transparent.
Proof.
  unfold scan_run.
  destruct (manual_pass_ok manual orig 0%nat) as (px1 & -> & Hpx1). cbn.
  destruct (scan_pass_ok (after_manual W H manual orig) (row_major W H) px1
              (length (valid_points W H manual)) (NoDup_row_major W H))
    as (px' & Hrun & Hpx').
  { intros c Hc%elem_of_row_major. split; [done|]. split; [apply Hpx1|].
    by apply after_manual_classified. }
  exists px'. split; [exact Hrun|].
  intros k. rewrite Hpx'. destruct (decide _); [by right|left; apply Hpx1].
Qed.

End scan_proofs.

Lemma process_scan_ok img cfg manual :
  well_formed img = true ->
  exists px',
    process_image img cfg false manual
      = Done (Raster (width img) (height img) px',
              (length (valid_points (width img) (height img) manual)
               + length (scan_hits cfg (width img) (height img) manual (pixels img)))%nat) /\
    forall k, px' !! k = after_manual (width img) (height img) manual (pixels img) k
              \/ px' !! k = Some transparent.
Proof.
  intros Hwf. pose proof (well_formed_spec img Hwf) as (HW & HH & _).
  destruct (scan_run_ok cfg (width img) (height img) (pixels img) manual
              (well_formed_classified img cfg Hwf)) as (px' & Hrun & Hpx').
  exists px'. split; [|done]. unfold process_image, process_image_with.
  replace (0 <? width img) with true by lia.
  replace (0 <? height img) with true by lia.
  cbn. by rewrite Hrun.
Qed.

(** ** Non-flood mode and both modes: main results *)

(** C1, as stated, fails: a valid manual point whose pixel matches the
    background rule is counted once when transparent black does not match. *)
Lemma manual_point_counted_once :
  in_bounds 1 1 (0, 0) = true /\
  matches_background grey_is_background (pixels (one_pixel (15, 15, 15, 255))) (0, 0) /\
  process_image (one_pixel (15, 15, 15, 255)) grey_is_background false [(0, 0)]
    = Done (one_pixel transparent, 1%nat) /\
  ~ (exists img',
       process_image (one_pixel (15, 15, 15, 255)) grey_is_background false [(0, 0)]
       = Done (img', 2%nat)).
Proof.
  assert (process_image (one_pixel (15, 15, 15, 255)) grey_is_background false [(0, 0)]
          = Done (one_pixel transparent, 1%nat)) as Hrun
    by (vm_compute; reflexivity).
  split; [reflexivity|]. split; [|split; [exact Hrun|]].
  - exists (15, 15, 15, 255). split; vm_compute; reflexivity.
  - intros (img' & Hrun'). congruence.
Qed.

(** C1 (amended): in non-flood mode the count is the number of valid
    manual points (with repetitions) plus the number of grid coordinates
    the scan erases; the scan reads a valid manual point as transparent
    black, so it counts that point again exactly when transparent black
    matches the background rule, whatever the original pixel was. *)
Theorem manual_point_count img cfg manual :
  well_formed img = true ->
  let W := width img in
  let H := height img in
  (exists img',
     process_image img cfg false manual
       = Done (img', (length (valid_points W H manual)
                      + length (scan_hits cfg W H manual (pixels img)))%nat)) /\
  NoDup (row_major W H) /\
  forall c, c ∈ manual -> in_bounds W H c = true ->
    c ∈ row_major W H /\
    (c ∈ scan_hits cfg W H manual (pixels img)
     <-> is_background cfg transparent = Done true).
Proof.
  intros Hwf W H.
  destruct (process_scan_ok img cfg manual Hwf) as (px' & Hrun & _).
  split; [eauto|]. split; [apply NoDup_row_major|].
  intros c Hc Hin. split; [by apply elem_of_row_major|].
  unfold scan_hits. rewrite list_elem_of_filter, elem_of_row_major.
  unfold scan_counts, after_manual. rewrite decide_True by done.
  unfold bgb. destruct (is_background_transparent cfg) as [b ->].
  split; [by intros [-> _]|by intros [= ->]].
Qed.

Lemma manual_point_count_witness :
  (exists img',
     process_image dark_ring dark_is_background false sample_points
       = Done (img', (length (valid_points 3 3 sample_points)
                      + length (scan_hits dark_is_background 3 3 sample_points
                                  (pixels dark_ring)))%nat)) /\
  NoDup (row_major 3 3) /\
  forall c, c ∈ sample_points -> in_bounds 3 3 c = true ->
    c ∈ row_major 3 3 /\
    (c ∈ scan_hits dark_is_background 3 3 sample_points (pixels dark_ring)
     <-> is_background dark_is_background transparent = Done true).
Proof.
  apply (manual_point_count dark_ring dark_is_background sample_points).
  vm_compute. reflexivity.
Defined.

(** C2, as stated, fails: a manual point is a seed whatever its colour. *)
Lemma manual_seed_erased_without_match :
  (forall c, on_border 1 1 c = true ->
     ~ matches_background dark_is_background (pixels (one_pixel light)) c) /\
  (forall c, c ∈ [(0, 0)] ->
     ~ matches_background dark_is_background (pixels (one_pixel light)) c) /\
  process_image (one_pixel light) dark_is_background true [(0, 0)]
    = Done (one_pixel transparent, 1%nat).
Proof.
  assert (forall c, ~ matches_background dark_is_background (pixels (one_pixel light)) c)
    as Hno.
  { intros c (p & Hp & Hb). change (pixels (one_pixel light)) with
      (<[(0, 0) := light]> (∅ : gmap coord pixel)) in Hp.
    apply lookup_insert_Some in Hp as [[_ <-]|[_ Hp]]; [|by rewrite lookup_empty in Hp].
    vm_compute in Hb. discriminate. }
  split; [auto|]. split; [auto|]. vm_compute. reflexivity.
Qed.

(** C2 (amended): in flood mode, if no border pixel matches the background
    rule and no manual point lies inside the image, nothing is modified:
    the raster is returned unchanged with count 0. *)
Theorem flood_without_seeds img cfg manual :
  well_formed img = true ->
  (forall c, on_border (width img) (height img) c = true ->
     ~ matches_background cfg (pixels img) c) ->
  (forall c, c ∈ manual -> in_bounds (width img) (height img) c = false) ->
  process_image img cfg true manual = Done (img, 0%nat).
Proof.
  intros Hwf Hborder Hmanual.
  destruct (process_flood_ok lifo img cfg manual Hwf) as (st & Hrun & _ & Hspec).
  assert (forall k, k ∉ st_visited st) as Hnone.
  { intros k Hk%(spec_visited _ _ _ _ _ _ Hspec).
    induction Hk as [c Hc Hbg|c Hc Hin|c n Hc IHc Hn Hin Hbg].
    - by apply (Hborder c).
    - apply Hmanual in Hc. congruence.
    - done. }
  unfold process_image. rewrite Hrun. f_equal. f_equal.
  - destruct img as [W H px]. cbn in *. f_equal.
    apply map_eq. intros k. rewrite (spec_pixels _ _ _ _ _ _ Hspec).
    rewrite decide_False; [done|apply Hnone].
  - rewrite (spec_count _ _ _ _ _ _ Hspec).
    rewrite (elem_of_nil_inv (st_pushed st)); [done|].
    intros k Hk%(spec_pushed _ _ _ _ _ _ Hspec). by apply (Hnone k).
Qed.

Lemma flood_without_seeds_witness :
  process_image light_ring dark_is_background true [(3, 0); (-1, 1)]
    = Done (light_ring, 0%nat).
Proof.
  apply flood_without_seeds.
  - vm_compute. reflexivity.
  - intros c Hc (p & Hp & Hb).
    destruct c as [x y]. unfold on_border in Hc.
    apply andb_prop in Hc as [Hin Hedge]. apply in_bounds_spec in Hin. cbn in Hin.
    assert (x = 0 \/ x = 1 \/ x = 2) as Hx by lia.
    assert (y = 0 \/ y = 1 \/ y = 2) as Hy by lia.
    destruct Hx as [->|[->| ->]], Hy as [->|[->| ->]];
      vm_compute in Hp; try discriminate;
      injection Hp as <-; vm_compute in Hb; discriminate.
  - intros c [->|[->|Hc]%elem_of_cons]%elem_of_cons; [done|done|].
    by apply not_elem_of_nil in Hc.
Defined.

(** C10: in both modes every pixel of the result either holds its original
    value or is transparent black; the size does not change. *)
Theorem only_transparent_written img cfg flood_fill manual :
  well_formed img = true ->
  exists img' n,
    process_image img cfg flood_fill manual = Done (img', n) /\
    width img' = width img /\ height img' = height img /\
    forall c, pixels img' !! c = pixels img !! c
              \/ pixels img' !! c = Some transparent.
Proof.
  intros Hwf. destruct flood_fill.
  - destruct (process_flood_ok lifo img cfg manual Hwf) as (st & Hrun & _ & Hspec).
    eexists _, _. split; [exact Hrun|]. cbn. split; [done|]. split; [done|].
    intros c. rewrite (spec_pixels _ _ _ _ _ _ Hspec). destruct (decide _); auto.
  - destruct (process_scan_ok img cfg manual Hwf) as (px' & Hrun & Hpx').
    eexists _, _. split; [exact Hrun|]. cbn. split; [done|]. split; [done|].
    intros c. destruct (Hpx' c) as [Hc|Hc]; [|by right].
    rewrite Hc. unfold after_manual. destruct (decide _); auto.
Qed.

Lemma only_transparent_written_witness :
  exists img' n,
    process_image dark_ring dark_is_background false sample_points = Done (img', n) /\
    width img' = 3 /\ height img' = 3 /\
    forall c, pixels img' !! c = pixels dark_ring !! c
              \/ pixels img' !! c = Some transparent.
Proof.
  apply (only_transparent_written dark_ring dark_is_background false sample_points).
  vm_compute. reflexivity.
Defined.

(** *** The 3x3 inverse scenario *)

(** C5, as stated, fails: the run erases nothing, so it does not erase
    exactly the centre. *)
Lemma inverse_scenario_erases_nothing :
  process_image (scenario_raster (fun _ => 255)) scenario_inverse true []
    = Done (scenario_raster (fun _ => 255), 0%nat) /\
  ~ (exists img',
       process_image (scenario_raster (fun _ => 255)) scenario_inverse true []
         = Done (img', 1%nat) /\
       pixels img' !! (1, 1) = Some transparent).
Proof.
  assert (process_image (scenario_raster (fun _ => 255)) scenario_inverse true []
          = Done (scenario_raster (fun _ => 255), 0%nat)) as Hrun
    by (vm_compute; reflexivity).
  split; [exact Hrun|]. intros (img' & Hrun' & _). congruence.
Qed.

(** C5 (amended): on that raster, with flood fill on and inverse set, no
    border pixel is background, so no pixel is erased: the count is 0 and
    all nine pixels, the centre included, are unchanged. *)
Theorem inverse_scenario_unchanged alpha :
  process_image (scenario_raster alpha) scenario_inverse true []
    = Done (scenario_raster alpha, 0%nat).
Proof. vm_compute. reflexivity. Qed.

(** *** The inversion law *)

(** C8: for every pixel, range and colour-space flag, the classification
    with [inverse] set is the negation of the one with [inverse] unset (and
    raises exactly when that one does). *)
Theorem inversion_law (p : pixel) (lower upper : color) (hsv : bool) :
  is_background (Config lower upper true hsv) p
  = negb <$> is_background (Config lower upper false hsv) p.
Proof.
  unfold is_background. cbn.
  destruct (is_within_bounds p lower upper hsv) as [[]| |]; reflexivity.
Qed.

(** * Further properties *)

(** ** Flood mode: what is erased *)

Lemma connected_in_bounds cfg W H px manual c :
  connected cfg W H px manual c -> in_bounds W H c = true.
Proof.
  destruct 1 as [c Hc _|c _ Hc|c n _ _ Hn _]; [|done|done].
  unfold on_border in Hc. by apply andb_prop in Hc as [? _].
Qed.

(** The flood branch, stated without the internal state. *)
Lemma process_flood_exact img cfg manual :
  well_formed img = true ->
  exists img' l,
    process_image img cfg true manual = Done (img', length l) /\
    NoDup l /\
    (forall c, c ∈ l <-> connected cfg (width img) (height img) (pixels img) manual c) /\
    (forall c, c ∈ l -> pixels img' !! c = Some transparent) /\
    (forall c, c ∉ l -> pixels img' !! c = pixels img !! c).
Proof.
  intros Hwf.
  destruct (process_flood_ok lifo img cfg manual Hwf) as (st & Hrun & _ & Hspec).
  exists (Raster (width img) (height img) (st_pixels st)), (st_pushed st).
  split; [by rewrite <- (spec_count _ _ _ _ _ _ Hspec)|].
  split; [apply Hspec|]. split.
  - intros c. rewrite (spec_pushed _ _ _ _ _ _ Hspec). apply Hspec.
  - split; intros c Hc; cbn; rewrite (spec_pixels _ _ _ _ _ _ Hspec).
    + rewrite decide_True; [done|]. by apply (spec_pushed _ _ _ _ _ _ Hspec).
    + rewrite decide_False; [done|]. by rewrite <- (spec_pushed _ _ _ _ _ _ Hspec).
Qed.

(** X1: in flood mode the erased pixels are exactly the connected ones,
    every other pixel keeps its value, and the count is the number of
    connected coordinates. *)
Theorem flood_erases_exactly_connected img cfg manual :
  well_formed img = true ->
  exists img' l,
    process_image img cfg true manual = Done (img', length l) /\
    NoDup l /\
    (forall c, c ∈ l <-> connected cfg (width img) (height img) (pixels img) manual c) /\
    (forall c, c ∈ l -> pixels img' !! c = Some transparent) /\
    (forall c, c ∉ l -> pixels img' !! c = pixels img !! c).
Proof. apply process_flood_exact. Qed.

Lemma flood_erases_exactly_connected_witness :
  exists img' l,
    process_image dark_ring dark_is_background true [] = Done (img', length l) /\
    NoDup l /\
    (forall c, c ∈ l <-> connected dark_is_background 3 3 (pixels dark_ring) [] c) /\
    (forall c, c ∈ l -> pixels img' !! c = Some transparent) /\
    (forall c, c ∉ l -> pixels img' !! c = pixels dark_ring !! c).
Proof.
  apply (flood_erases_exactly_connected dark_ring dark_is_background []).
  vm_compute. reflexivity.
Defined.

(** Every in-range coordinate is reached from the top row by going down. *)
Lemma connected_column cfg W H px manual x :
  0 < H -> 0 <= x < W ->
  (forall c, in_bounds W H c = true -> matches_background cfg px c) ->
  forall n : nat, Z.of_nat n < H -> connected cfg W H px manual (x, Z.of_nat n).
Proof.
  intros HH Hx Hall. induction n as [|n IH]; intros Hn.
  - apply connected_border.
    + unfold on_border. apply andb_true_intro. split.
      * apply in_bounds_spec. cbn. lia.
      * cbn [fst snd]. rewrite !orb_true_iff, !Z.eqb_eq. lia.
    + apply Hall, in_bounds_spec. cbn. lia.
  - apply (connected_step _ _ _ _ _ (x, Z.of_nat n)).
    + apply IH. lia.
    + unfold neighbours. apply list_elem_of_fmap. exists (0, 1). cbn.
      split; [f_equal; lia|]. set_solver.
    + apply in_bounds_spec. cbn. lia.
    + apply Hall, in_bounds_spec. cbn. lia.
Qed.

(** X2: if every pixel of the image matches the background rule, flood
    mode erases the whole image and reports [width * height], whatever the
    manual points. *)
Theorem flood_all_background img cfg manual :
  well_formed img = true ->
  (forall c, in_bounds (width img) (height img) c = true ->
     matches_background cfg (pixels img) c) ->
  exists img',
    process_image img cfg true manual
      = Done (img', Z.to_nat (width img * height img)) /\
    forall c, in_bounds (width img) (height img) c = true ->
      pixels img' !! c = Some transparent.
Proof.
  intros Hwf Hall. pose proof (well_formed_spec img Hwf) as (HW & HH & _).
  destruct (process_flood_exact img cfg manual Hwf)
    as (img' & l & Hrun & Hnd & Hl & Hin & _).
  assert (forall c, c ∈ l <-> c ∈ row_major (width img) (height img)) as Hgrid.
  { intros c. rewrite Hl, elem_of_row_major. split; [apply connected_in_bounds|].
    intros Hc. destruct c as [x y]. pose proof Hc as [Hx Hy]%in_bounds_spec. cbn in Hx, Hy.
    rewrite <- (Z2Nat.id y) by lia. apply connected_column; auto. lia. }
  exists img'. split.
  - rewrite Hrun. f_equal. f_equal.
    rewrite (Permutation_length (NoDup_Permutation _ _ Hnd (NoDup_row_major _ _) Hgrid)).
    rewrite length_row_major, Z2Nat.inj_mul; lia.
  - intros c Hc. apply Hin, Hgrid, elem_of_row_major, Hc.
Qed.

Lemma flood_all_background_witness :
  exists img',
    process_image (one_pixel dark) dark_is_background true [] = Done (img', 1%nat) /\
    forall c, in_bounds 1 1 c = true -> pixels img' !! c = Some transparent.
Proof.
  apply (flood_all_background (one_pixel dark) dark_is_background []).
  - vm_compute. reflexivity.
  - intros [x y] Hc. apply in_bounds_spec in Hc. cbn in Hc.
    assert (x = 0) as -> by lia. assert (y = 0) as -> by lia.
    exists dark. split; vm_compute; reflexivity.
Defined.

(** ** Non-flood mode: what is erased *)

Lemma bgb_true cfg p : bgb cfg p = true <-> is_background cfg p = Done true.
Proof.
  unfold bgb. destruct (is_background cfg p) as [[]| |]; split; congruence.
Qed.

Lemma scan_run_exact cfg W H orig manual :
  (forall c, in_bounds W H c = true ->
     exists p b, orig !! c = Some p /\ is_background cfg p = Done b) ->
  exists px',
    scan_run cfg W H manual orig
      = Done (px', (length (valid_points W H manual)
                    + length (scan_hits cfg W H manual orig))%nat) /\
    forall k, px' !! k =
      if decide (k ∈ scan_hits cfg W H manual orig) then Some transparent
      else after_manual W H manual orig k.
Proof.
  intros Horig. unfold scan_run.
  destruct (manual_pass_ok W H manual orig 0%nat) as (px1 & -> & Hpx1). cbn.
  destruct (scan_pass_ok cfg W H (after_manual W H manual orig) (row_major W H) px1
              (length (valid_points W H manual)) (NoDup_row_major W H))
    as (px' & Hrun & Hpx').
  { intros c Hc%elem_of_row_major. split; [done|]. split; [apply Hpx1|].
    by apply after_manual_classified. }
  exists px'. split; [exact Hrun|].
  intros k. rewrite Hpx', Hpx1. apply decide_ext.
  unfold scan_hits. by rewrite list_elem_of_filter, (comm and).
Qed.

Lemma process_scan_exact img cfg manual :
  well_formed img = true ->
  let W := width img in
  let H := height img in
  exists px',
    process_image img cfg false manual
      = Done (Raster W H px',
              (length (valid_points W H manual)
               + length (scan_hits cfg W H manual (pixels img)))%nat) /\
    forall k, px' !! k =
      if decide (k ∈ scan_hits cfg W H manual (pixels img)) then Some transparent
      else after_manual W H manual (pixels img) k.
Proof.
  intros Hwf W H. pose proof (well_formed_spec img Hwf) as (HW & HH & _).
  destruct (scan_run_exact cfg W H (pixels img) manual
              (well_formed_classified img cfg Hwf)) as (px' & Hrun & Hpx').
  exists px'. split; [|done]. unfold process_image, process_image_with.
  fold W H. replace (0 <? W) with true by lia. replace (0 <? H) with true by lia.
  cbn. by rewrite Hrun.
Qed.

(** Without manual points the scan counts exactly the matching pixels. *)
Lemma scan_hits_no_manual cfg W H px c :
  c ∈ scan_hits cfg W H [] px
  <-> in_bounds W H c = true /\ matches_background cfg px c.
Proof.
  unfold scan_hits, scan_counts, after_manual, matches_background.
  rewrite list_elem_of_filter, elem_of_row_major.
  rewrite decide_False by (intros [Hc _]; by apply not_elem_of_nil in Hc).
  split.
  - intros [Hb Hin]. split; [done|].
    destruct (px !! c) as [p|]; [|done]. exists p. by rewrite <- bgb_true.
  - intros [Hin (p & -> & Hp)]. by rewrite bgb_true.
Qed.

(** X3: in non-flood mode without manual points, a pixel is erased iff it
    matches the background rule, wherever it lies; every other pixel keeps
    its value and the count is the number of matching pixels. *)
Theorem scan_erases_exactly_matching img cfg :
  well_formed img = true ->
  exists img' l,
    process_image img cfg false [] = Done (img', length l) /\
    NoDup l /\
    (forall c, c ∈ l <-> in_bounds (width img) (height img) c = true /\
                         matches_background cfg (pixels img) c) /\
    (forall c, c ∈ l -> pixels img' !! c = Some transparent) /\
    (forall c, c ∉ l -> pixels img' !! c = pixels img !! c).
Proof.
  intros Hwf. destruct (process_scan_exact img cfg [] Hwf) as (px' & Hrun & Hpx').
  eexists _, (scan_hits cfg (width img) (height img) [] (pixels img)).
  split; [exact Hrun|]. split; [apply NoDup_filter, NoDup_row_major|].
  split; [apply scan_hits_no_manual|].
  split; intros c Hc; cbn; rewrite Hpx'.
  - by rewrite decide_True.
  - rewrite decide_False by done. unfold after_manual.
    rewrite decide_False; [done|]. intros [Hm _]. by apply not_elem_of_nil in Hm.
Qed.

Lemma scan_erases_exactly_matching_witness :
  exists img' l,
    process_image light_ring dark_is_background false [] = Done (img', length l) /\
    NoDup l /\
    (forall c, c ∈ l <-> in_bounds 3 3 c = true /\
                         matches_background dark_is_background (pixels light_ring) c) /\
    (forall c, c ∈ l -> pixels img' !! c = Some transparent) /\
    (forall c, c ∉ l -> pixels img' !! c = pixels light_ring !! c).
Proof.
  apply (scan_erases_exactly_matching light_ring dark_is_background).
  vm_compute. reflexivity.
Defined.

(** X4: in non-flood mode every valid manual point and every matching
    pixel ends transparent, and an in-range pixel that is neither keeps its
    value. *)
Theorem scan_erases_manual_and_matching img cfg manual c :
  well_formed img = true ->
  in_bounds (width img) (height img) c = true ->
  exists img' n,
    process_image img cfg false manual = Done (img', n) /\
    (c ∈ manual \/ matches_background cfg (pixels img) c ->
       pixels img' !! c = Some transparent) /\
    (c ∉ manual -> ~ matches_background cfg (pixels img) c ->
       pixels img' !! c = pixels img !! c).
Proof.
  intros Hwf Hin. destruct (process_scan_exact img cfg manual Hwf) as (px' & Hrun & Hpx').
  eexists _, _. split; [exact Hrun|]. cbn. rewrite Hpx'.
  unfold scan_hits. rewrite (decide_ext _ _ _ _ (list_elem_of_filter _ _ _)).
  unfold scan_counts, after_manual.
  destruct (decide (c ∈ manual /\ in_bounds (width img) (height img) c = true)) as [Hm|Hm].
  - split; [by destruct (decide _)|]. intros Hn. by destruct Hm.
  - assert (c ∉ manual) as Hnm by tauto.
    destruct (well_formed_classified img cfg Hwf c Hin) as (p & b & Hp & Hb).
    rewrite Hp. split.
    + intros [?|(p' & Hp' & Hb')]; [done|].
      rewrite decide_True; [done|]. split; [|by apply elem_of_row_major].
      apply bgb_true. congruence.
    + intros _ Hnb. rewrite decide_False; [done|]. intros [Hbg _]. apply Hnb.
      exists p. by rewrite <- bgb_true.
Qed.

Lemma scan_erases_manual_and_matching_witness :
  exists img' n,
    process_image dark_ring dark_is_background false sample_points = Done (img', n) /\
    ((1, 1) ∈ sample_points \/
     matches_background dark_is_background (pixels dark_ring) (1, 1) ->
       pixels img' !! (1, 1) = Some transparent) /\
    ((1, 1) ∉ sample_points ->
     ~ matches_background dark_is_background (pixels dark_ring) (1, 1) ->
       pixels img' !! (1, 1) = pixels dark_ring !! (1, 1)).
Proof.
  apply (scan_erases_manual_and_matching dark_ring dark_is_background sample_points (1, 1)).
  - vm_compute. reflexivity.
  - vm_compute. reflexivity.
Defined.

(** ** The two modes compared *)

(** A connected coordinate that is not a manual point matches the rule. *)
Lemma connected_not_manual cfg W H px manual c :
  connected cfg W H px manual c -> c ∉ manual -> matches_background cfg px c.
Proof. destruct 1; intros Hm; [done| |done]. by destruct Hm. Qed.

(** X5: with the same configuration and manual points, every pixel that
    is transparent after flood mode is transparent after non-flood mode,
    and the flood count is at most the non-flood count. *)
Theorem flood_erases_no_more_than_scan img cfg manual :
  well_formed img = true ->
  exists imgF nF imgS nS,
    process_image img cfg true manual = Done (imgF, nF) /\
    process_image img cfg false manual = Done (imgS, nS) /\
    (nF <= nS)%nat /\
    forall c, pixels imgF !! c = Some transparent ->
              pixels imgS !! c = Some transparent.
Proof.
  intros Hwf.
  destruct (process_flood_ok lifo img cfg manual Hwf) as (st & HrunF & _ & Hspec).
  destruct (process_scan_exact img cfg manual Hwf) as (px' & HrunS & Hpx').
  set (W := width img) in *. set (H := height img) in *.
  assert (forall c, c ∈ st_visited st ->
            c ∈ valid_points W H manual \/ c ∈ scan_hits cfg W H manual (pixels img))
    as Hcover.
  { intros c Hc%(spec_visited _ _ _ _ _ _ Hspec).
    pose proof (connected_in_bounds _ _ _ _ _ _ Hc) as Hin.
    destruct (decide (c ∈ manual)) as [Hm|Hm].
    - left. by apply list_elem_of_filter.
    - right. apply list_elem_of_filter. split; [|by apply elem_of_row_major].
      unfold scan_counts, after_manual. rewrite decide_False by tauto.
      destruct (connected_not_manual _ _ _ _ _ _ Hc Hm) as (p & -> & Hp).
      by apply bgb_true. }
  eexists _, _, _, _. split; [exact HrunF|]. split; [exact HrunS|]. split.
  - rewrite (spec_count _ _ _ _ _ _ Hspec), <- length_app.
    apply submseteq_length, NoDup_submseteq; [apply Hspec|].
    intros c Hc%(spec_pushed _ _ _ _ _ _ Hspec). apply elem_of_app. auto.
  - intros c. cbn. rewrite (spec_pixels _ _ _ _ _ _ Hspec), Hpx'.
    destruct (decide (c ∈ scan_hits _ _ _ _ _)); [done|].
    unfold after_manual. destruct (decide (c ∈ manual /\ _)) as [|Hnm]; [done|].
    destruct (decide (c ∈ st_visited st)) as [Hv|]; [|done].
    destruct (Hcover c Hv) as [Hvp|]; [|done].
    apply list_elem_of_filter in Hvp. tauto.
Qed.

Lemma flood_erases_no_more_than_scan_witness :
  exists imgF nF imgS nS,
    process_image light_ring dark_is_background true sample_points = Done (imgF, nF) /\
    process_image light_ring dark_is_background false sample_points = Done (imgS, nS) /\
    (nF <= nS)%nat /\
    forall c, pixels imgF !! c = Some transparent ->
              pixels imgS !! c = Some transparent.
Proof.
  apply (flood_erases_no_more_than_scan light_ring dark_is_background sample_points).
  vm_compute. reflexivity.
Defined.

(** ** Running the script on its own output *)

Lemma byte_pixel_transparent : byte_pixel transparent = true.
Proof. reflexivity. Qed.

Lemma well_formed_intro W H px :
  0 < W -> 0 < H ->
  (forall c, in_bounds W H c = true -> exists p, px !! c = Some p /\ byte_pixel p = true) ->
  well_formed (Raster W H px) = true.
Proof.
  intros HW HH Hpx. unfold well_formed. cbn.
  apply andb_true_intro. split; [apply andb_true_intro; split; lia|].
  apply forallb_forall. intros c Hc%list_elem_of_In%elem_of_row_major.
  by destruct (Hpx c Hc) as (p & -> & ?).
Qed.

Lemma connected_after_flood (cfg : config) (W H : Z) (orig : gmap coord pixel)
    (manual : list coord) (px1 : gmap coord pixel) (visited : gset coord) :
  (forall k, k ∈ visited <-> connected cfg W H orig manual k) ->
  (forall k, px1 !! k = if decide (k ∈ visited) then Some transparent else orig !! k) ->
  forall c, connected cfg W H px1 manual c -> c ∈ visited.
Proof.
  intros Hv Hpx1.
  assert (forall c, matches_background cfg px1 c ->
            c ∈ visited \/ matches_background cfg orig c) as Hbg.
  { intros c (p & Hp & Hb). rewrite Hpx1 in Hp.
    destruct (decide (c ∈ visited)); [by left|right; by exists p]. }
  induction 1 as [c Hc Hm|c Hc Hin|c n Hc IHc Hn Hin Hm].
  - destruct (Hbg c Hm) as [|Hm']; [done|]. by apply Hv, connected_border.
  - by apply Hv, connected_manual.
  - destruct (Hbg n Hm) as [|Hm']; [done|].
    apply Hv. eapply connected_step; [apply Hv, IHc|done..].
Qed.

(** X6: the result of [process_image] on a well-formed raster is again
    well-formed, and running the same mode with the same arguments on it
    changes no pixel. *)
Theorem process_image_idempotent img cfg flood_fill manual img' n :
  well_formed img = true ->
  process_image img cfg flood_fill manual = Done (img', n) ->
  well_formed img' = true /\
  exists n', process_image img' cfg flood_fill manual = Done (img', n').
Proof.
  intros Hwf Hrun. pose proof (well_formed_spec img Hwf) as (HW & HH & Hpx).
  destruct flood_fill.
  - destruct (process_flood_ok lifo img cfg manual Hwf) as (st & Hrun1 & _ & S1).
    unfold process_image in Hrun. rewrite Hrun1 in Hrun. injection Hrun as <- <-.
    assert (well_formed (Raster (width img) (height img) (st_pixels st)) = true) as Hwf'.
    { apply well_formed_intro; [done..|]. intros c Hc.
      rewrite (spec_pixels _ _ _ _ _ _ S1). destruct (decide _); [|auto].
      exists transparent. done. }
    split; [done|].
    destruct (process_flood_ok lifo _ cfg manual Hwf') as (st2 & Hrun2 & _ & S2).
    cbn in Hrun2, S2. eexists. unfold process_image. rewrite Hrun2. f_equal. f_equal.
    f_equal. apply map_eq. intros k. rewrite (spec_pixels _ _ _ _ _ _ S2).
    destruct (decide (k ∈ st_visited st2)) as [Hk|]; [|done].
    rewrite (spec_pixels _ _ _ _ _ _ S1), decide_True; [done|].
    apply (connected_after_flood cfg (width img) (height img) (pixels img) manual
             (st_pixels st) (st_visited st)); [apply S1|apply S1|].
    by apply (spec_visited _ _ _ _ _ _ S2).
  - destruct (process_scan_exact img cfg manual Hwf) as (px1 & Hrun1 & Hpx1).
    cbn zeta in Hrun1, Hpx1. rewrite Hrun1 in Hrun. injection Hrun as <- <-.
    assert (well_formed (Raster (width img) (height img) px1) = true) as Hwf'.
    { apply well_formed_intro; [done..|]. intros c Hc. rewrite Hpx1.
      destruct (decide _); [by exists transparent|].
      unfold after_manual. destruct (decide _); [by exists transparent|auto]. }
    split; [done|].
    destruct (process_scan_exact _ cfg manual Hwf') as (px2 & Hrun2 & Hpx2).
    cbn in Hrun2, Hpx2. eexists. rewrite Hrun2. f_equal. f_equal.
    f_equal. apply map_eq. intros k. rewrite Hpx2.
    unfold after_manual at 1.
    destruct (decide (k ∈ manual /\ in_bounds (width img) (height img) k = true)) as [Hm|Hm].
    + rewrite Hpx1. unfold after_manual. rewrite (decide_True (P := k ∈ manual /\ _)) by done.
      by repeat destruct (decide _).
    + destruct (decide (k ∈ scan_hits cfg _ _ manual px1)) as [Hhit|]; [|done].
      apply list_elem_of_filter in Hhit as [Hhit Hgrid].
      unfold scan_counts, after_manual in Hhit. rewrite decide_False in Hhit by done.
      rewrite Hpx1 in Hhit |- *.
      destruct (decide (k ∈ scan_hits cfg _ _ manual (pixels img))) as [|Hno]; [done|].
      exfalso. apply Hno. apply list_elem_of_filter. split; [|done].
      unfold scan_counts. done.
Qed.

Lemma process_image_idempotent_witness :
  well_formed (raster_of_rows [[transparent; transparent; transparent];
                               [transparent; light; transparent];
                               [transparent; transparent; transparent]]) = true /\
  exists n', process_image
               (raster_of_rows [[transparent; transparent; transparent];
                                [transparent; light; transparent];
                                [transparent; transparent; transparent]])
               dark_is_background true []
             = Done (raster_of_rows [[transparent; transparent; transparent];
                                     [transparent; light; transparent];
                                     [transparent; transparent; transparent]], n').
Proof.
  apply (process_image_idempotent dark_ring dark_is_background true [] _ 8%nat).
  - vm_compute. reflexivity.
  - vm_compute. reflexivity.
Defined.

(** ** Manual points *)

Lemma connected_manual_mono (cfg : config) (W H : Z) (px : gmap coord pixel)
    (m m' : list coord) :
  (forall c, in_bounds W H c = true -> c ∈ m -> c ∈ m') ->
  forall c, connected cfg W H px m c -> connected cfg W H px m' c.
Proof.
  intros Hsub. induction 1 as [c Hc Hbg|c Hc Hin|c n Hc IHc Hn Hin Hbg].
  - by apply connected_border.
  - apply connected_manual; auto.
  - by eapply connected_step.
Qed.

(** In flood mode the result depends only on which in-range coordinates
    are manual points. *)
Lemma flood_manual_set img cfg (m m' : list coord) :
  well_formed img = true ->
  (forall c, in_bounds (width img) (height img) c = true -> c ∈ m <-> c ∈ m') ->
  process_image img cfg true m = process_image img cfg true m'.
Proof.
  intros Hwf Hset.
  destruct (process_flood_ok lifo img cfg m Hwf) as (st1 & Hrun1 & _ & S1).
  destruct (process_flood_ok lifo img cfg m' Hwf) as (st2 & Hrun2 & _ & S2).
  assert (flood_spec cfg (width img) (height img) (pixels img) m' st1) as S1'.
  { destruct S1 as [? Hv ? ? ? ? ? ?]. split; try done.
    intros k. rewrite Hv. split; apply connected_manual_mono; intros c Hc; by apply Hset. }
  destruct (flood_spec_agree _ _ _ _ _ _ _ S1' S2) as [Hpx Hcnt].
  unfold process_image. by rewrite Hrun1, Hrun2, Hpx, Hcnt.
Qed.

Lemma after_manual_valid (W H : Z) (m m' : list coord) (px : gmap coord pixel) :
  (forall c, c ∈ valid_points W H m <-> c ∈ valid_points W H m') ->
  forall k, after_manual W H m px k = after_manual W H m' px k.
Proof.
  intros Hset k. unfold after_manual. apply decide_ext.
  specialize (Hset k). unfold valid_points in Hset.
  by rewrite !list_elem_of_filter, !(comm and (in_bounds W H k = true)) in Hset.
Qed.

(** In non-flood mode the result depends only on the valid manual points,
    up to their order. *)
Lemma scan_manual_perm img cfg (m m' : list coord) :
  well_formed img = true ->
  valid_points (width img) (height img) m ≡ₚ valid_points (width img) (height img) m' ->
  process_image img cfg false m = process_image img cfg false m'.
Proof.
  intros Hwf Hperm.
  destruct (process_scan_exact img cfg m Hwf) as (px1 & Hrun1 & Hpx1).
  destruct (process_scan_exact img cfg m' Hwf) as (px2 & Hrun2 & Hpx2).
  cbn zeta in *.
  assert (forall k, after_manual (width img) (height img) m (pixels img) k
                    = after_manual (width img) (height img) m' (pixels img) k) as Ham.
  { apply after_manual_valid. intros c. by rewrite Hperm. }
  assert (scan_hits cfg (width img) (height img) m (pixels img)
          = scan_hits cfg (width img) (height img) m' (pixels img)) as Hhits.
  { unfold scan_hits. apply list_filter_iff. intros c. unfold scan_counts. by rewrite Ham. }
  rewrite Hrun1, Hrun2, Hhits, (Permutation_length Hperm). f_equal. f_equal. f_equal.
  apply map_eq. intros k. by rewrite Hpx1, Hpx2, Hhits, Ham.
Qed.

Lemma valid_points_idemp (W H : Z) (m : list coord) :
  valid_points W H (valid_points W H m) = valid_points W H m.
Proof.
  unfold valid_points. induction m as [|c m IH]; [done|].
  destruct (in_bounds W H c) eqn:Hc.
  - rewrite (filter_cons_True _ c m) by done.
    rewrite filter_cons_True by done. by rewrite IH.
  - by rewrite (filter_cons_False _ c m) by congruence.
Qed.

(** X7: manual points outside the image are ignored, in both modes:
    dropping them from the list changes neither the raster nor the count. *)
Theorem out_of_range_points_ignored img cfg flood_fill manual :
  well_formed img = true ->
  process_image img cfg flood_fill manual
  = process_image img cfg flood_fill (valid_points (width img) (height img) manual).
Proof.
  intros Hwf. destruct flood_fill.
  - apply flood_manual_set; [done|]. intros c Hc.
    unfold valid_points. rewrite list_elem_of_filter. tauto.
  - apply scan_manual_perm; [done|]. by rewrite valid_points_idemp.
Qed.

Lemma out_of_range_points_ignored_witness :
  process_image dark_ring dark_is_background false [(1, 1); (9, 9); (-1, 0)]
  = process_image dark_ring dark_is_background false
      (valid_points 3 3 [(1, 1); (9, 9); (-1, 0)]).
Proof.
  apply (out_of_range_points_ignored dark_ring dark_is_background false).
  vm_compute. reflexivity.
Defined.

(** X8: the order of the manual points does not matter, in both modes. *)
Theorem manual_points_order_irrelevant img cfg flood_fill (m m' : list coord) :
  well_formed img = true ->
  m ≡ₚ m' ->
  process_image img cfg flood_fill m = process_image img cfg flood_fill m'.
Proof.
  intros Hwf Hperm. destruct flood_fill.
  - apply flood_manual_set; [done|]. intros c _. by rewrite Hperm.
  - apply scan_manual_perm; [done|]. unfold valid_points. by rewrite Hperm.
Qed.

Lemma manual_points_order_irrelevant_witness :
  process_image light_ring dark_is_background true [(1, 1); (0, 0)]
  = process_image light_ring dark_is_background true [(0, 0); (1, 1)].
Proof.
  apply manual_points_order_irrelevant.
  - vm_compute. reflexivity.
  - apply perm_swap.
Defined.

(** X9: in flood mode a manual point given several times counts once: two
    lists with the same elements give the same raster and the same count. *)
Theorem flood_ignores_repeated_points img cfg (m m' : list coord) :
  well_formed img = true ->
  (forall c, c ∈ m <-> c ∈ m') ->
  process_image img cfg true m = process_image img cfg true m'.
Proof. intros Hwf Hset. apply flood_manual_set; [done|]. intros c _. apply Hset. Qed.

Lemma flood_ignores_repeated_points_witness :
  process_image light_ring dark_is_background true [(1, 1)]
  = process_image light_ring dark_is_background true [(1, 1); (1, 1)].
Proof.
  apply flood_ignores_repeated_points.
  - vm_compute. reflexivity.
  - intros c. rewrite !elem_of_cons. tauto.
Defined.

(** ** The range and the inverse flag *)

Lemma is_background_flip (p : pixel) (lower upper : color) (hsv : bool) (b : bool) :
  is_background (Config lower upper false hsv) p = Done b ->
  is_background (Config lower upper true hsv) p = Done (negb b).
Proof.
  unfold is_background. cbn.
  destruct (is_within_bounds p lower upper hsv) as [[]| |]; cbn;
    try discriminate; by intros [= <-].
Qed.

Lemma filter_ext_in {A : Type} (f g : A -> bool) (l : list A) :
  (forall x, x ∈ l -> f x = g x) ->
  filter (fun x => f x = true) l = filter (fun x => g x = true) l.
Proof.
  induction l as [|a l IH]; intros Hfg; [done|].
  assert (f a = g a) as Ha by (apply Hfg; left).
  assert (filter (fun x => f x = true) l = filter (fun x => g x = true) l) as Hl
    by (apply IH; intros x Hx; apply Hfg; by right).
  destruct (g a) eqn:Hg.
  - rewrite (filter_cons_True (fun x => f x = true)) by done.
    rewrite (filter_cons_True (fun x => g x = true)) by done. by rewrite Hl.
  - rewrite (filter_cons_False (fun x => f x = true)) by (rewrite Ha; done).
    rewrite (filter_cons_False (fun x => g x = true)) by (rewrite Hg; done). done.
Qed.

Lemma length_filter_complement {A : Type} (f : A -> bool) (l : list A) :
  (length (filter (fun x => f x = true) l)
   + length (filter (fun x => negb (f x) = true) l) = length l)%nat.
Proof.
  induction l as [|a l IH]; [done|]. destruct (f a) eqn:Ha.
  - rewrite filter_cons_True by done.
    rewrite (filter_cons_False (fun x => negb (f x) = true)) by (rewrite Ha; done).
    cbn. lia.
  - rewrite filter_cons_False by (rewrite Ha; done).
    rewrite (filter_cons_True (fun x => negb (f x) = true)) by (rewrite Ha; done).
    cbn. lia.
Qed.

(** X10: in non-flood mode without manual points, the run with [inverse]
    and the run without it split the image between them: the two counts add
    up to [width * height], and each in-range pixel is transparent after at
    least one of the two runs. *)
Theorem inverse_splits_the_image img (lower upper : color) (hsv : bool) :
  well_formed img = true ->
  exists img0 n0 img1 n1,
    process_image img (Config lower upper false hsv) false [] = Done (img0, n0) /\
    process_image img (Config lower upper true hsv) false [] = Done (img1, n1) /\
    Z.of_nat n0 + Z.of_nat n1 = width img * height img /\
    forall c, in_bounds (width img) (height img) c = true ->
      pixels img0 !! c = Some transparent \/ pixels img1 !! c = Some transparent.
Proof.
  intros Hwf. pose proof (well_formed_spec img Hwf) as (HW & HH & _).
  set (cfg0 := Config lower upper false hsv). set (cfg1 := Config lower upper true hsv).
  destruct (process_scan_exact img cfg0 [] Hwf) as (px0 & Hrun0 & Hpx0).
  destruct (process_scan_exact img cfg1 [] Hwf) as (px1 & Hrun1 & Hpx1).
  cbn zeta in *. set (W := width img) in *. set (H := height img) in *.
  assert (forall c, c ∈ row_major W H ->
            scan_counts cfg1 W H [] (pixels img) c
            = negb (scan_counts cfg0 W H [] (pixels img) c)) as Hflip.
  { intros c Hc%elem_of_row_major. unfold scan_counts, after_manual.
    rewrite decide_False by (intros [Hm _]; by apply not_elem_of_nil in Hm).
    destruct (well_formed_classified img cfg0 Hwf c Hc) as (p & b & -> & Hb).
    unfold bgb, cfg1. unfold cfg0 in Hb |- *.
    by rewrite (is_background_flip _ _ _ _ _ Hb), Hb. }
  assert (scan_hits cfg1 W H [] (pixels img)
          = filter (fun c => negb (scan_counts cfg0 W H [] (pixels img) c) = true)
              (row_major W H)) as Hhits1.
  { unfold scan_hits.
    apply (filter_ext_in (scan_counts cfg1 W H [] (pixels img))
             (fun c => negb (scan_counts cfg0 W H [] (pixels img) c))), Hflip. }
  eexists _, _, _, _. split; [exact Hrun0|]. split; [exact Hrun1|]. split.
  - change (valid_points W H []) with (@nil coord). cbn [length Nat.add].
    rewrite Hhits1. unfold scan_hits.
    rewrite <- Nat2Z.inj_add, length_filter_complement, length_row_major.
    rewrite Nat2Z.inj_mul, !Z2Nat.id; lia.
  - intros c Hc. cbn. rewrite Hpx0, Hpx1, Hhits1.
    destruct (decide (c ∈ scan_hits cfg0 W H [] (pixels img))) as [|Hno]; [by left|].
    right. rewrite decide_True; [done|].
    apply list_elem_of_filter. split; [|by apply elem_of_row_major].
    apply negb_true_iff, not_true_is_false. intros Hhit. apply Hno.
    apply list_elem_of_filter. split; [done|by apply elem_of_row_major].
Qed.

Lemma inverse_splits_the_image_witness :
  exists img0 n0 img1 n1,
    process_image dark_ring (Config (0, 0, 0) (20, 20, 20) false true) false []
      = Done (img0, n0) /\
    process_image dark_ring (Config (0, 0, 0) (20, 20, 20) true true) false []
      = Done (img1, n1) /\
    Z.of_nat n0 + Z.of_nat n1 = 3 * 3 /\
    forall c, in_bounds 3 3 c = true ->
      pixels img0 !! c = Some transparent \/ pixels img1 !! c = Some transparent.
Proof.
  apply (inverse_splits_the_image dark_ring (0, 0, 0) (20, 20, 20) true).
  vm_compute. reflexivity.
Defined.

(** When nothing matches the rule and there is no manual point, either
    mode returns the raster as it was, with count 0. *)
Lemma process_nothing_matches img cfg flood_fill :
  well_formed img = true ->
  (forall c, ~ matches_background cfg (pixels img) c) ->
  process_image img cfg flood_fill [] = Done (img, 0%nat).
Proof.
  intros Hwf Hno. destruct flood_fill.
  - destruct (process_flood_ok lifo img cfg [] Hwf) as (st & Hrun & _ & Hspec).
    assert (forall k, k ∉ st_visited st) as Hnone.
    { intros k Hk%(spec_visited _ _ _ _ _ _ Hspec).
      destruct Hk as [c _ Hbg|c Hc _|c n _ _ _ Hbg].
      - by apply (Hno c).
      - by apply not_elem_of_nil in Hc.
      - by apply (Hno n). }
    unfold process_image. rewrite Hrun. destruct img as [W H px]. cbn in *.
    f_equal. f_equal.
    + f_equal. apply map_eq. intros k.
      rewrite (spec_pixels _ _ _ _ _ _ Hspec), decide_False; [done|apply Hnone].
    + rewrite (spec_count _ _ _ _ _ _ Hspec), (elem_of_nil_inv (st_pushed st)); [done|].
      intros k Hk%(spec_pushed _ _ _ _ _ _ Hspec). by apply (Hnone k).
  - destruct (process_scan_exact img cfg [] Hwf) as (px' & Hrun & Hpx').
    cbn zeta in *.
    assert (scan_hits cfg (width img) (height img) [] (pixels img) = []) as Hhits.
    { apply elem_of_nil_inv. intros c [_ Hc]%scan_hits_no_manual. by apply (Hno c). }
    rewrite Hrun, Hhits. destruct img as [W H px]. cbn in *. f_equal. f_equal. f_equal.
    apply map_eq. intros k. rewrite Hpx', Hhits, decide_False by apply not_elem_of_nil.
    unfold after_manual. rewrite decide_False; [done|].
    intros [Hm _]. by apply not_elem_of_nil in Hm.
Qed.

(** X11: the matcher neither checks nor reorders the bounds: if some lower
    component is above its upper component, no pixel is within the bounds,
    so without [inverse] and without manual points both modes return the
    raster unchanged with count 0. *)
Theorem empty_range_erases_nothing img (lr lg lb ur ug ub : Z) (hsv flood_fill : bool) :
  well_formed img = true ->
  ur < lr \/ ug < lg \/ ub < lb ->
  process_image img (Config (lr, lg, lb) (ur, ug, ub) false hsv) flood_fill []
  = Done (img, 0%nat).
Proof.
  intros Hwf Hempty. apply process_nothing_matches; [done|].
  intros c (p & _ & Hb). destruct p as [[[r g] b] a].
  unfold is_background, is_within_bounds in Hb. cbn in Hb.
  assert (forall x y z : Z,
            (lr <=? x) && (x <=? ur) && ((lg <=? y) && (y <=? ug))
            && ((lb <=? z) && (z <=? ub)) = false) as Hfalse.
  { intros x y z. apply not_true_is_false. rewrite !andb_true_iff. lia. }
  destruct hsv.
  - destruct (rgb_to_hsv_opencv r g b) as [[[h s] v]| |]; cbn in Hb; [|done..].
    by rewrite Hfalse in Hb.
  - by rewrite Hfalse in Hb.
Qed.

Lemma empty_range_erases_nothing_witness :
  process_image dark_ring (Config (20, 0, 0) (10, 255, 255) false true) true []
  = Done (dark_ring, 0%nat).
Proof.
  apply (empty_range_erases_nothing dark_ring 20 0 0 10 255 255 true true).
  - vm_compute. reflexivity.
  - lia.
Defined.

(** ** The conversion on bytes *)

Lemma grey_check_all : forallb grey_check (range 256) = true.
Proof. vm_compute. reflexivity. Qed.

(** X12: a grey pixel converts to hue 0, saturation 0 and its grey level
    as value, with no rounding loss. *)
Theorem grey_to_hsv (z : Z) :
  0 <= z <= 255 -> rgb_to_hsv_opencv z z z = Done (0, 0, z).
Proof.
  intros Hz. pose proof grey_check_all as Hall. rewrite forallb_forall in Hall.
  specialize (Hall z). unfold grey_check in Hall.
  destruct (rgb_to_hsv_opencv z z z) as [[[h s] v]| |].
  - rewrite !andb_true_iff, !Z.eqb_eq in Hall.
    destruct Hall as [[-> ->] ->]; [|done].
    apply list_elem_of_In, elem_of_seqZ. lia.
  - discriminate Hall. apply list_elem_of_In, elem_of_seqZ. lia.
  - discriminate Hall. apply list_elem_of_In, elem_of_seqZ. lia.
Qed.

Lemma grey_to_hsv_witness : rgb_to_hsv_opencv 128 128 128 = Done (0, 0, 128).
Proof. apply grey_to_hsv. lia. Defined.

Lemma order_check_all :
  forallb (fun a => forallb (order_check a) (range 256)) (range 256) = true.
Proof. vm_compute. reflexivity. Qed.

Lemma range_256_In z : 0 <= z <= 255 -> In z (range 256).
Proof. intros Hz. apply list_elem_of_In, elem_of_seqZ. lia. Qed.

Lemma unit_channel_order a b :
  0 <= a <= 255 -> 0 <= b <= 255 ->
  PrimFloat.ltb (unit_channel a) (unit_channel b) = (a <? b) /\
  PrimFloat.eqb (unit_channel a) (unit_channel b) = (a =? b).
Proof.
  intros Ha Hb. pose proof order_check_all as Hall.
  rewrite forallb_forall in Hall. specialize (Hall a (range_256_In a Ha)).
  rewrite forallb_forall in Hall. specialize (Hall b (range_256_In b Hb)).
  unfold order_check in Hall. apply andb_prop in Hall as [H1 H2].
  apply eqb_prop in H1, H2. done.
Qed.

Lemma max3_unit_channel r g b :
  0 <= r <= 255 -> 0 <= g <= 255 -> 0 <= b <= 255 ->
  PyFloat.max3 (unit_channel r) (unit_channel g) (unit_channel b)
  = unit_channel (Z.max r (Z.max g b)).
Proof.
  intros Hr Hg Hb. unfold PyFloat.max3.
  rewrite (proj1 (unit_channel_order r g Hr Hg)).
  destruct (Z.ltb_spec r g).
  - rewrite (proj1 (unit_channel_order g b Hg Hb)).
    destruct (Z.ltb_spec g b); f_equal; lia.
  - rewrite (proj1 (unit_channel_order r b Hr Hb)).
    destruct (Z.ltb_spec r b); f_equal; lia.
Qed.

Lemma min3_unit_channel r g b :
  0 <= r <= 255 -> 0 <= g <= 255 -> 0 <= b <= 255 ->
  PyFloat.min3 (unit_channel r) (unit_channel g) (unit_channel b)
  = unit_channel (Z.min r (Z.min g b)).
Proof.
  intros Hr Hg Hb. unfold PyFloat.min3.
  rewrite (proj1 (unit_channel_order g r Hg Hr)).
  destruct (Z.ltb_spec g r).
  - rewrite (proj1 (unit_channel_order b g Hb Hg)).
    destruct (Z.ltb_spec b g); f_equal; lia.
  - rewrite (proj1 (unit_channel_order b r Hb Hr)).
    destruct (Z.ltb_spec b r); f_equal; lia.
Qed.

Lemma colorsys_saturation_value r g b h s v :
  0 <= r <= 255 -> 0 <= g <= 255 -> 0 <= b <= 255 ->
  colorsys_rgb_to_hsv (unit_channel r) (unit_channel g) (unit_channel b) = Done (h, s, v) ->
  s = saturation_float (Z.max r (Z.max g b)) (Z.min r (Z.min g b)) /\
  v = unit_channel (Z.max r (Z.max g b)).
Proof.
  intros Hr Hg Hb. unfold colorsys_rgb_to_hsv, saturation_float.
  rewrite max3_unit_channel, min3_unit_channel by done.
  set (mx := unit_channel (Z.max r (Z.max g b))).
  set (mn := unit_channel (Z.min r (Z.min g b))).
  destruct (PrimFloat.eqb mn mx); [by intros [= <- <- <-]|].
  unfold PyFloat.div.
  destruct (PrimFloat.eqb mx PrimFloat.zero); [done|]. cbn [mbind outcome_bind].
  destruct (PrimFloat.eqb (PrimFloat.sub mx mn) PrimFloat.zero); [done|].
  cbn [mbind outcome_bind].
  destruct (PrimFloat.eqb PyFloat.f6 PrimFloat.zero); [done|]. cbn [mbind outcome_bind].
  by intros [= <- <- <-].
Qed.

Lemma saturation_value_check_all :
  forallb (fun mx => forallb (saturation_value_check mx) (range (mx + 1))) (range 256)
  = true.
Proof. vm_compute. reflexivity. Qed.

(** X13: on bytes the value is exactly the largest channel, and the
    saturation is the exact [255 * (max - min) / max] truncated, or one
    below it (float rounding), and never negative. *)
Theorem hsv_value_and_saturation r g b h s v :
  0 <= r <= 255 -> 0 <= g <= 255 -> 0 <= b <= 255 ->
  rgb_to_hsv_opencv r g b = Done (h, s, v) ->
  let mx := Z.max r (Z.max g b) in
  let mn := Z.min r (Z.min g b) in
  v = mx /\ 0 <= s /\ exact_saturation mx mn - 1 <= s <= exact_saturation mx mn.
Proof.
  intros Hr Hg Hb Hrun mx mn. unfold rgb_to_hsv_opencv in Hrun.
  destruct (colorsys_rgb_to_hsv _ _ _) as [[[hf sf] vf]| |] eqn:Hc; [|done..].
  destruct (colorsys_saturation_value _ _ _ _ _ _ Hr Hg Hb Hc) as [-> ->].
  fold mx mn in Hrun. cbn [mbind outcome_bind] in Hrun. unfold scale_hsv in Hrun.
  pose proof saturation_value_check_all as Hall.
  rewrite forallb_forall in Hall. specialize (Hall mx (range_256_In mx ltac:(lia))).
  rewrite forallb_forall in Hall.
  specialize (Hall mn ltac:(apply list_elem_of_In, elem_of_seqZ; lia)).
  unfold saturation_value_check in Hall.
  destruct (PyFloat.to_int (PrimFloat.mul hf PyFloat.f179)) as [h'| |]; [|done..].
  cbn [mbind outcome_bind] in Hrun.
  destruct (PyFloat.to_int (PrimFloat.mul (saturation_float mx mn) PyFloat.f255))
    as [s'| |]; [|done..].
  cbn [mbind outcome_bind] in Hrun.
  destruct (PyFloat.to_int (PrimFloat.mul (unit_channel mx) PyFloat.f255))
    as [v'| |]; [|done..].
  cbn [mbind outcome_bind] in Hrun. injection Hrun as <- <- <-.
  rewrite !andb_true_iff in Hall. lia.
Qed.

Lemma hsv_value_and_saturation_witness :
  let mx := Z.max 45 (Z.max 9 9) in
  let mn := Z.min 45 (Z.min 9 9) in
  45 = mx /\ 0 <= 203 /\ exact_saturation mx mn - 1 <= 203 <= exact_saturation mx mn.
Proof.
  apply (hsv_value_and_saturation 45 9 9 0 203 45); try lia.
  vm_compute. reflexivity.
Defined.

(** ** More on manual points and the border *)

(** X21: every valid manual point ends transparent, in both modes and
    whatever its colour. *)
Theorem manual_points_erased img cfg flood_fill manual c :
  well_formed img = true ->
  c ∈ manual -> in_bounds (width img) (height img) c = true ->
  exists img' n,
    process_image img cfg flood_fill manual = Done (img', n) /\
    pixels img' !! c = Some transparent.
Proof.
  intros Hwf Hc Hin. destruct flood_fill.
  - destruct (process_flood_ok lifo img cfg manual Hwf) as (st & Hrun & _ & Hspec).
    eexists _, _. split; [exact Hrun|]. cbn.
    rewrite (spec_pixels _ _ _ _ _ _ Hspec), decide_True; [done|].
    by apply (spec_visited _ _ _ _ _ _ Hspec), connected_manual.
  - destruct (process_scan_exact img cfg manual Hwf) as (px' & Hrun & Hpx').
    eexists _, _. split; [exact Hrun|]. cbn. rewrite Hpx'.
    destruct (decide _); [done|]. unfold after_manual. by rewrite decide_True.
Qed.

Lemma manual_points_erased_witness :
  exists img' n,
    process_image dark_ring dark_is_background true sample_points = Done (img', n) /\
    pixels img' !! (1, 1) = Some transparent.
Proof.
  apply (manual_points_erased dark_ring dark_is_background true sample_points (1, 1)).
  - vm_compute. reflexivity.
  - left.
  - vm_compute. reflexivity.
Defined.

(** X22: in flood mode, adding manual points never brings a pixel back:
    what is transparent with the shorter list is transparent with the
    longer one. *)
Theorem more_points_erase_more img cfg (manual extra : list coord) :
  well_formed img = true ->
  exists img1 n1 img2 n2,
    process_image img cfg true manual = Done (img1, n1) /\
    process_image img cfg true (manual ++ extra) = Done (img2, n2) /\
    (n1 <= n2)%nat /\
    forall c, pixels img1 !! c = Some transparent -> pixels img2 !! c = Some transparent.
Proof.
  intros Hwf.
  destruct (process_flood_ok lifo img cfg manual Hwf) as (st1 & Hrun1 & _ & S1).
  destruct (process_flood_ok lifo img cfg (manual ++ extra) Hwf) as (st2 & Hrun2 & _ & S2).
  assert (forall k, k ∈ st_visited st1 -> k ∈ st_visited st2) as Hsub.
  { intros k Hk%(spec_visited _ _ _ _ _ _ S1). apply (spec_visited _ _ _ _ _ _ S2).
    eapply connected_manual_mono; [|exact Hk]. intros c _ Hc. apply elem_of_app. auto. }
  eexists _, _, _, _. split; [exact Hrun1|]. split; [exact Hrun2|]. split.
  - rewrite (spec_count _ _ _ _ _ _ S1), (spec_count _ _ _ _ _ _ S2).
    apply submseteq_length, NoDup_submseteq; [apply S1|].
    intros k Hk%(spec_pushed _ _ _ _ _ _ S1). by apply (spec_pushed _ _ _ _ _ _ S2), Hsub.
  - intros c. cbn. rewrite (spec_pixels _ _ _ _ _ _ S1), (spec_pixels _ _ _ _ _ _ S2).
    destruct (decide (c ∈ st_visited st1)) as [Hv|]; [by rewrite decide_True by auto|].
    by destruct (decide _).
Qed.

Lemma more_points_erase_more_witness :
  exists img1 n1 img2 n2,
    process_image light_ring dark_is_background true [] = Done (img1, n1) /\
    process_image light_ring dark_is_background true ([] ++ [(1, 1)]) = Done (img2, n2) /\
    (n1 <= n2)%nat /\
    forall c, pixels img1 !! c = Some transparent -> pixels img2 !! c = Some transparent.
Proof.
  apply (more_points_erase_more light_ring dark_is_background [] [(1, 1)]).
  vm_compute. reflexivity.
Defined.

(** X23: an image at most two pixels wide or two pixels high has only
    border pixels, so without manual points flood mode and non-flood mode
    give the same raster and the same count. *)
Theorem thin_image_flood_is_scan img cfg :
  well_formed img = true ->
  width img <= 2 \/ height img <= 2 ->
  process_image img cfg true [] = process_image img cfg false [].
Proof.
  intros Hwf Hthin. pose proof (well_formed_spec img Hwf) as (HW & HH & _).
  destruct (process_flood_ok lifo img cfg [] Hwf) as (st & HrunF & _ & Hspec).
  destruct (process_scan_exact img cfg [] Hwf) as (px' & HrunS & Hpx').
  cbn zeta in *. set (W := width img) in *. set (H := height img) in *.
  assert (forall c, c ∈ st_visited st <-> c ∈ scan_hits cfg W H [] (pixels img)) as Hsame.
  { intros c. rewrite (spec_visited _ _ _ _ _ _ Hspec), scan_hits_no_manual. split.
    - intros Hc. split; [by eapply connected_in_bounds|].
      eapply connected_not_manual; [exact Hc|apply not_elem_of_nil].
    - intros [Hin Hbg]. apply connected_border; [|done].
      unfold on_border. rewrite Hin. cbn [andb].
      apply in_bounds_spec in Hin. rewrite !orb_true_iff, !Z.eqb_eq. lia. }
  rewrite HrunS. unfold process_image. rewrite HrunF. f_equal. f_equal.
  - f_equal. apply map_eq. intros k. rewrite (spec_pixels _ _ _ _ _ _ Hspec), Hpx'.
    rewrite (decide_ext _ _ _ _ (Hsame k)). destruct (decide _); [done|].
    unfold after_manual. rewrite decide_False; [done|].
    intros [Hm _]. by apply not_elem_of_nil in Hm.
  - change (valid_points W H []) with (@nil coord). cbn [length Nat.add].
    rewrite (spec_count _ _ _ _ _ _ Hspec).
    apply Permutation_length, NoDup_Permutation.
    + apply Hspec.
    + apply NoDup_filter, NoDup_row_major.
    + intros k. by rewrite (spec_pushed _ _ _ _ _ _ Hspec).
Qed.

Lemma thin_image_flood_is_scan_witness :
  process_image (raster_of_rows [[dark; light; dark]; [light; dark; dark]])
    dark_is_background true []
  = process_image (raster_of_rows [[dark; light; dark]; [light; dark; dark]])
      dark_is_background false [].
Proof.
  apply thin_image_flood_is_scan.
  - vm_compute. reflexivity.
  - right. vm_compute. discriminate.
Defined.

(** ** Splitting and stripping *)

Lemma split_cons_comma s : PyStr.split "," ("," :: s)%char = [] :: PyStr.split "," s.
Proof. reflexivity. Qed.

Lemma split_nonempty sep s : PyStr.split sep s <> [].
Proof.
  induction s as [|c s IH]; cbn; [done|].
  destruct (Ascii.eqb c sep); [done|]. by destruct (PyStr.split sep s).
Qed.

Lemma split_app_comma a rest :
  Forall (fun c => Ascii.eqb c "," = false) a ->
  PyStr.split "," (a ++ "," :: rest)%char = a :: PyStr.split "," rest.
Proof.
  induction 1 as [|c a Hc Ha IH]; [done|].
  cbn [app PyStr.split]. rewrite Hc, IH. done.
Qed.

Lemma split_no_comma a :
  Forall (fun c => Ascii.eqb c "," = false) a -> PyStr.split "," a = [a].
Proof.
  induction 1 as [|c a Hc Ha IH]; [done|].
  cbn [PyStr.split]. rewrite Hc, IH. done.
Qed.

(** The number of pieces is one more than the number of separators. *)
Lemma length_split sep s :
  length (PyStr.split sep s) = S (length (filter (fun c => Ascii.eqb c sep = true) s)).
Proof.
  induction s as [|c s IH]; [done|]. cbn [PyStr.split].
  destruct (Ascii.eqb c sep) eqn:Hc.
  - rewrite filter_cons_True by done. cbn. by rewrite IH.
  - rewrite filter_cons_False by (rewrite Hc; done).
    destruct (PyStr.split sep s) eqn:Hs; [by apply split_nonempty in Hs|].
    cbn in *. done.
Qed.

Lemma lstrip_spaces w s :
  Forall (fun c => PyStr.is_space c = true) w -> PyStr.lstrip (w ++ s) = PyStr.lstrip s.
Proof. induction 1 as [|c w Hc Hw IH]; [done|]. cbn. by rewrite Hc. Qed.

Lemma lstrip_app_spaces s w :
  Forall (fun c => PyStr.is_space c = true) w ->
  PyStr.lstrip (s ++ w) = match PyStr.lstrip s with [] => [] | t => t ++ w end.
Proof.
  intros Hw. induction s as [|c s IH]; cbn.
  - rewrite <- (app_nil_r w), lstrip_spaces by done. done.
  - destruct (PyStr.is_space c); [done|done].
Qed.

Lemma Forall_rev_iff {A : Type} (P : A -> Prop) (l : list A) :
  Forall P l -> Forall P (rev l).
Proof. intros Hl. apply Forall_forall. intros x Hx%list_elem_of_In%in_rev.
  rewrite Forall_forall in Hl. by apply Hl, list_elem_of_In. Qed.

(** Whitespace around a token does not survive [strip]. *)
Lemma strip_padding w1 t w2 :
  Forall (fun c => PyStr.is_space c = true) w1 ->
  Forall (fun c => PyStr.is_space c = true) w2 ->
  PyStr.strip (w1 ++ t ++ w2) = PyStr.strip t.
Proof.
  intros H1 H2. unfold PyStr.strip. rewrite lstrip_spaces by done.
  rewrite lstrip_app_spaces by done.
  destruct (PyStr.lstrip t) as [|c t'] eqn:Ht; [done|].
  rewrite rev_app_distr, lstrip_spaces by by apply Forall_rev_iff. done.
Qed.

Lemma lstrip_plain s :
  Forall (fun c => PyStr.is_space c = false) s -> PyStr.lstrip s = s.
Proof. destruct 1 as [|c s Hc Hs]; [done|]. cbn. by rewrite Hc. Qed.

Lemma strip_plain s :
  Forall (fun c => PyStr.is_space c = false) s -> PyStr.strip s = s.
Proof.
  intros Hs. unfold PyStr.strip. rewrite (lstrip_plain s) by done.
  rewrite lstrip_plain by by apply Forall_rev_iff. apply rev_involutive.
Qed.

(** ** Reading decimal numerals *)

Lemma digits_uint d : forall acc,
  PyStr.digits acc false
    (list_ascii_of_string (DecimalString.NilEmpty.string_of_uint d))
  = Some (uint_value d acc).
Proof.
  induction d as [|d IH|d IH|d IH|d IH|d IH|d IH|d IH|d IH|d IH|d IH];
    intros acc; cbn [DecimalString.NilEmpty.string_of_uint list_ascii_of_string
                     PyStr.digits uint_value]; [done|..];
    (change (PyStr.is_digit _) with true; cbn match; rewrite IH; f_equal; f_equal;
     vm_compute PyStr.code; lia).
Qed.

Lemma uint_value_pos d : forall p,
  uint_value d (Z.pos p) = Z.pos (Pos.of_uint_acc d p).
Proof.
  induction d as [|d IH|d IH|d IH|d IH|d IH|d IH|d IH|d IH|d IH|d IH];
    intros p; cbn [uint_value Pos.of_uint_acc]; [done|..];
    (etransitivity; [|apply IH]); f_equal; lia.
Qed.

Lemma uint_value_zero d : uint_value d 0 = Z.of_N (Pos.of_uint d).
Proof.
  induction d as [|d IH|d IH|d IH|d IH|d IH|d IH|d IH|d IH|d IH|d IH];
    cbn [uint_value Pos.of_uint]; [done|exact IH|..];
    (etransitivity; [|apply (uint_value_pos d)]); f_equal.
Qed.

Lemma count_digits_uint d :
  PyStr.count_digits (list_ascii_of_string (DecimalString.NilEmpty.string_of_uint d))
  = Z.of_nat (Decimal.nb_digits d).
Proof.
  induction d as [|d IH|d IH|d IH|d IH|d IH|d IH|d IH|d IH|d IH|d IH];
    cbn [DecimalString.NilEmpty.string_of_uint list_ascii_of_string
         PyStr.count_digits Decimal.nb_digits]; [done|..];
    (change (PyStr.is_digit _) with true; cbn match; rewrite IH; lia).
Qed.

Lemma unsigned_uint d :
  PyStr.unsigned (list_ascii_of_string (DecimalString.NilZero.string_of_uint d))
  = if PyStr.max_str_digits
       <? PyStr.count_digits
            (list_ascii_of_string (DecimalString.NilZero.string_of_uint d))
    then None else Some (Z.of_uint d).
Proof.
  unfold Z.of_uint. rewrite <- uint_value_zero.
  destruct d; cbn [DecimalString.NilZero.string_of_uint
                   DecimalString.NilEmpty.string_of_uint list_ascii_of_string
                   PyStr.unsigned uint_value]; [done|..];
    (change (PyStr.is_digit _) with true; cbn match; rewrite digits_uint;
     destruct (_ <? _); [done|]; f_equal; f_equal; vm_compute; reflexivity).
Qed.

(** The characters of a numeral are digits, after an optional minus sign. *)
Lemma uint_chars_plain d :
  Forall (fun c => plain c = true /\ PyStr.is_digit c = true)
    (list_ascii_of_string (DecimalString.NilEmpty.string_of_uint d)).
Proof.
  induction d; cbn [DecimalString.NilEmpty.string_of_uint list_ascii_of_string];
    [constructor|..]; (constructor; [by vm_compute|done]).
Qed.

Lemma uint0_chars_plain d :
  Forall (fun c => plain c = true /\ PyStr.is_digit c = true)
    (list_ascii_of_string (DecimalString.NilZero.string_of_uint d)).
Proof.
  destruct d; try apply uint_chars_plain.
  cbn. constructor; [by vm_compute|constructor].
Qed.

Lemma decimal_plain z : Forall (fun c => plain c = true) (decimal z).
Proof.
  unfold decimal. destruct (Z.to_int z) as [d|d];
    cbn [DecimalString.NilZero.string_of_int list_ascii_of_string].
  - eapply Forall_impl; [apply uint0_chars_plain|]. by intros c [? _].
  - constructor; [by vm_compute|].
    eapply Forall_impl; [apply uint0_chars_plain|]. by intros c [? _].
Qed.

Lemma plain_not_space s :
  Forall (fun c => plain c = true) s -> Forall (fun c => PyStr.is_space c = false) s.
Proof.
  intros Hs. eapply Forall_impl; [exact Hs|].
  intros c [Hc _]%andb_prop. by apply negb_true_iff.
Qed.

Lemma plain_not_comma s :
  Forall (fun c => plain c = true) s -> Forall (fun c => Ascii.eqb c "," = false) s.
Proof.
  intros Hs. eapply Forall_impl; [exact Hs|].
  intros c [_ Hc]%andb_prop. by apply negb_true_iff.
Qed.

(** [int] reads a canonical numeral back unless it has too many digits. *)
Lemma int_decimal z :
  PyStr.int (decimal z)
  = if PyStr.max_str_digits <? num_digits z then Raised ValueError else Done z.
Proof.
  unfold PyStr.int, num_digits.
  rewrite strip_plain by apply plain_not_space, decimal_plain.
  rewrite <- (DecimalZ.of_to z) at 3. unfold decimal.
  destruct (Z.to_int z) as [d|d];
    cbn [DecimalString.NilZero.string_of_int list_ascii_of_string Z.of_int].
  - pose proof (unsigned_uint d) as Hu. pose proof (uint0_chars_plain d) as Hp.
    destruct (list_ascii_of_string (DecimalString.NilZero.string_of_uint d))
      as [|c s]; [done|].
    apply Forall_cons in Hp as [[_ Hc] _].
    assert (Ascii.eqb c "-" = false /\ Ascii.eqb c "+" = false) as [-> ->].
    { unfold PyStr.is_digit, PyStr.code in Hc.
      split; apply Ascii.eqb_neq; intros ->; vm_compute in Hc; discriminate. }
    rewrite Hu. by destruct (_ <? _).
  - change (Ascii.eqb "-" "-") with true. cbn match. rewrite unsigned_uint.
    cbn [PyStr.count_digits]. change (PyStr.is_digit "-") with false. cbn match.
    rewrite Z.add_0_l. by destruct (_ <? _).
Qed.

(** ** Digits and magnitude *)

Lemma uint_value_shift d : forall acc,
  uint_value d acc = acc * 10 ^ Z.of_nat (Decimal.nb_digits d) + uint_value d 0.
Proof.
  induction d as [|d IH|d IH|d IH|d IH|d IH|d IH|d IH|d IH|d IH|d IH];
    intros acc; cbn [uint_value Decimal.nb_digits]; [rewrite Z.pow_0_r; lia|..];
    (match goal with
     | |- uint_value d ?a = _ + uint_value d ?b => rewrite (IH a), (IH b)
     end; rewrite Nat2Z.inj_succ, Z.pow_succ_r by lia; lia).
Qed.

Lemma uint_value_bound d : 0 <= uint_value d 0 < 10 ^ Z.of_nat (Decimal.nb_digits d).
Proof.
  induction d as [|d IH|d IH|d IH|d IH|d IH|d IH|d IH|d IH|d IH|d IH];
    cbn [uint_value Decimal.nb_digits]; [rewrite Z.pow_0_r; lia|..];
    (rewrite uint_value_shift, Nat2Z.inj_succ, Z.pow_succ_r by lia; lia).
Qed.

(** A numeral without leading zero is at least the power of ten of its
    length. *)
Lemma uint_value_lower d :
  Decimal.nzhead d = d -> d <> Decimal.Nil ->
  10 ^ (Z.of_nat (Decimal.nb_digits d) - 1) <= uint_value d 0.
Proof.
  intros Hd Hnil. pose proof (DecimalFacts.nzhead_nonzero d) as Hnz. rewrite Hd in Hnz.
  destruct d as [|d|d|d|d|d|d|d|d|d|d]; [done|by destruct (Hnz d)|..];
    cbn [uint_value Decimal.nb_digits];
    (rewrite uint_value_shift, Nat2Z.inj_succ;
     replace (Z.succ (Z.of_nat (Decimal.nb_digits d)) - 1)
       with (Z.of_nat (Decimal.nb_digits d)) by lia;
     pose proof (uint_value_bound d);
     assert (0 < 10 ^ Z.of_nat (Decimal.nb_digits d)) by (apply Z.pow_pos_nonneg; lia);
     nia).
Qed.

Lemma to_uint_nzhead p : Decimal.nzhead (Pos.to_uint p) = Pos.to_uint p.
Proof.
  pose proof (DecimalPos.Unsigned.to_of (Pos.to_uint p)) as Hn.
  rewrite DecimalPos.Unsigned.of_to in Hn. cbn [N.to_uint] in Hn.
  rewrite <- DecimalFacts.unorm_nzhead; [done|].
  intros H0%DecimalFacts.unorm_0. rewrite <- Hn in H0.
  by apply DecimalPos.Unsigned.to_uint_nonzero in H0.
Qed.

Lemma num_digits_pos p :
  PyStr.count_digits
    (list_ascii_of_string (DecimalString.NilZero.string_of_uint (Pos.to_uint p)))
  = Z.of_nat (Decimal.nb_digits (Pos.to_uint p)).
Proof.
  rewrite <- count_digits_uint.
  pose proof (DecimalPos.Unsigned.to_uint_nonnil p).
  by destruct (Pos.to_uint p).
Qed.

Lemma pos_digits_magnitude p (n : Z) :
  0 <= n ->
  Z.of_nat (Decimal.nb_digits (Pos.to_uint p)) <= n <-> Z.pos p < 10 ^ n.
Proof.
  intros Hn. set (d := Pos.to_uint p).
  assert (Z.pos p = uint_value d 0) as ->.
  { rewrite uint_value_zero. unfold d. by rewrite DecimalPos.Unsigned.of_to. }
  pose proof (uint_value_bound d) as Hup.
  pose proof (uint_value_lower d (to_uint_nzhead p)
                (DecimalPos.Unsigned.to_uint_nonnil p)) as Hlow.
  split; intros Hle.
  - eapply Z.lt_le_trans; [apply Hup|]. apply Z.pow_le_mono_r; lia.
  - destruct (Z_le_gt_dec (Z.of_nat (Decimal.nb_digits d)) n) as [|Hgt]; [done|].
    exfalso. assert (10 ^ n <= 10 ^ (Z.of_nat (Decimal.nb_digits d) - 1))
      by (apply Z.pow_le_mono_r; lia). lia.
Qed.

(** A numeral has at most [n] digits exactly when the number is below
    [10 ^ n] in absolute value. *)
Lemma num_digits_magnitude z (n : Z) :
  1 <= n -> num_digits z <= n <-> Z.abs z < 10 ^ n.
Proof.
  intros Hn. unfold num_digits, decimal.
  destruct z as [|p|p]; cbn [Z.to_int Z.abs DecimalString.NilZero.string_of_int].
  - split; intros _; [apply Z.pow_pos_nonneg; lia|vm_compute PyStr.count_digits; lia].
  - rewrite num_digits_pos. apply pos_digits_magnitude. lia.
  - cbn [list_ascii_of_string PyStr.count_digits].
    change (PyStr.is_digit "-") with false. cbn match.
    rewrite Z.add_0_l, num_digits_pos. apply pos_digits_magnitude. lia.
Qed.

Lemma int_decimal_magnitude z :
  PyStr.int (decimal z)
  = if Z.abs z <? 10 ^ PyStr.max_str_digits then Done z else Raised ValueError.
Proof.
  rewrite int_decimal.
  assert (1 <= PyStr.max_str_digits) as Hlimit by done.
  pose proof (num_digits_magnitude z PyStr.max_str_digits Hlimit) as [Hm1 Hm2].
  destruct (Z.ltb_spec PyStr.max_str_digits (num_digits z)) as [Hd|Hd],
           (Z.ltb_spec (Z.abs z) (10 ^ PyStr.max_str_digits)) as [Ha|Ha]; try done;
    exfalso.
  - apply Hm2 in Ha. by apply Z.lt_nge in Hd.
  - apply Hm1 in Hd. by apply Z.lt_nge in Hd.
Qed.

(** Bytes are far below the limit. *)
Lemma byte_below_limit z :
  (0 <=? z) && (z <=? 255) = true -> (Z.abs z <? 10 ^ PyStr.max_str_digits) = true.
Proof.
  intros [H0 H255]%andb_prop. apply Z.ltb_lt.
  apply Z.lt_le_trans with (10 ^ 3); [lia|].
  apply Z.pow_le_mono_r; [lia|by vm_compute].
Qed.

(** ** Colour and point strings *)

Lemma space_not_comma w :
  Forall (fun c => PyStr.is_space c = true) w ->
  Forall (fun c => Ascii.eqb c "," = false) w.
Proof.
  intros Hw. eapply Forall_impl; [exact Hw|]. intros c Hc.
  apply Ascii.eqb_neq. intros ->. vm_compute in Hc. discriminate.
Qed.

Lemma parse_point_decimal (x y : Z) :
  parse_point (point_string x y)
  = if (Z.abs x <? 10 ^ PyStr.max_str_digits) && (Z.abs y <? 10 ^ PyStr.max_str_digits)
    then Done (x, y) else Raised ValueError.
Proof.
  unfold parse_point, point_string. rewrite list_ascii_of_string_of_list_ascii.
  rewrite split_app_comma by apply plain_not_comma, decimal_plain.
  rewrite split_no_comma by apply plain_not_comma, decimal_plain.
  rewrite !strip_plain by apply plain_not_space, decimal_plain.
  rewrite !int_decimal_magnitude.
  by destruct (Z.abs x <? _), (Z.abs y <? _).
Qed.

(** X14: reading back a point written in decimal returns it, negative
    coordinates included and without any range check, as long as both
    coordinates have at most 4300 digits; with a longer one [int]
    refuses the numeral and [parse_point] raises [ValueError]. *)
Theorem parse_point_round_trip (x y : Z) :
  parse_point (point_string x y)
  = if (Z.abs x <? 10 ^ PyStr.max_str_digits) && (Z.abs y <? 10 ^ PyStr.max_str_digits)
    then Done (x, y) else Raised ValueError.
Proof. apply parse_point_decimal. Qed.

Lemma parse_color_decimal (r g b : Z) :
  parse_color (color_string r g b)
  = if (0 <=? r) && (r <=? 255) && ((0 <=? g) && (g <=? 255))
       && ((0 <=? b) && (b <=? 255))
    then Done (r, g, b) else Raised ValueError.
Proof.
  unfold parse_color, color_components, color_string.
  rewrite list_ascii_of_string_of_list_ascii.
  rewrite !split_app_comma by apply plain_not_comma, decimal_plain.
  rewrite split_no_comma by apply plain_not_comma, decimal_plain.
  cbn [length Nat.eqb map_outcome].
  rewrite !strip_plain by apply plain_not_space, decimal_plain.
  rewrite !int_decimal_magnitude.
  pose proof (byte_below_limit r) as Hr. pose proof (byte_below_limit g) as Hg.
  pose proof (byte_below_limit b) as Hb.
  destruct (Z.abs r <? _) eqn:Er, (Z.abs g <? _) eqn:Eg, (Z.abs b <? _) eqn:Eb;
    cbn [mbind outcome_bind forallb];
    destruct ((0 <=? r) && (r <=? 255)) eqn:Br, ((0 <=? g) && (g <=? 255)) eqn:Bg,
             ((0 <=? b) && (b <=? 255)) eqn:Bb;
    cbn [andb]; try done;
    try (by specialize (Hr eq_refl)); try (by specialize (Hg eq_refl));
    by specialize (Hb eq_refl).
Qed.

(** X15: reading back a colour written in decimal returns it exactly when
    its three components are in [0,255], and raises [ValueError]
    otherwise. *)
Theorem parse_color_round_trip (r g b : Z) :
  parse_color (color_string r g b)
  = if (0 <=? r) && (r <=? 255) && ((0 <=? g) && (g <=? 255))
       && ((0 <=? b) && (b <=? 255))
    then Done (r, g, b) else Raised ValueError.
Proof. apply parse_color_decimal. Qed.

(** X16: a colour string must contain exactly two commas and a point
    string exactly one; any other string, the empty one included, raises
    [ValueError]. *)
Theorem wrong_arity_rejected (s : String.string) :
  (commas s <> 2%nat -> parse_color s = Raised ValueError) /\
  (commas s <> 1%nat -> parse_point s = Raised ValueError).
Proof.
  unfold commas, parse_color, color_components, parse_point.
  pose proof (length_split "," (list_ascii_of_string s)) as Hlen.
  destruct (PyStr.split "," (list_ascii_of_string s)) as [|t1 [|t2 [|t3 [|t4 ts]]]];
    cbn [length] in Hlen; split; intros Hn; try done; lia.
Qed.

Lemma wrong_arity_rejected_witness :
  parse_color "" = Raised ValueError /\ parse_point "1,2,3" = Raised ValueError.
Proof.
  split.
  - apply (proj1 (wrong_arity_rejected "")). vm_compute. lia.
  - apply (proj2 (wrong_arity_rejected "1,2,3")). vm_compute. lia.
Defined.

(** X17: whitespace around the three components of a colour string is
    ignored. *)
Theorem parse_color_ignores_padding (t1 t2 t3 w1 w2 w3 w4 w5 w6 : list ascii) :
  Forall (fun c => PyStr.is_space c = true) (w1 ++ w2 ++ w3 ++ w4 ++ w5 ++ w6) ->
  Forall (fun c => Ascii.eqb c "," = false) (t1 ++ t2 ++ t3) ->
  parse_color (string_of_list_ascii
                 ((w1 ++ t1 ++ w2) ++ ","%char :: (w3 ++ t2 ++ w4)
                  ++ ","%char :: (w5 ++ t3 ++ w6)))
  = parse_color (string_of_list_ascii (t1 ++ ","%char :: t2 ++ ","%char :: t3)).
Proof.
  rewrite !Forall_app. intros (H1 & H2 & H3 & H4 & H5 & H6) (T1 & T2 & T3).
  unfold parse_color, color_components.
  rewrite !list_ascii_of_string_of_list_ascii.
  rewrite !split_app_comma, !split_no_comma;
    rewrite ?Forall_app; auto using space_not_comma.
  cbn [length Nat.eqb map_outcome]. by rewrite !strip_padding.
Qed.

Lemma parse_color_ignores_padding_witness :
  parse_color " 10,20 , 30" = parse_color "10,20,30".
Proof.
  apply (parse_color_ignores_padding
           ["1"; "0"]%char ["2"; "0"]%char ["3"; "0"]%char
           [" "]%char [] [] [" "]%char [" "]%char []).
  - repeat constructor.
  - repeat constructor.
Defined.

(** ** [main] *)

Lemma map_outcome_Done {A B : Type} (f : A -> outcome B) (l : list A) (bs : list B) :
  map_outcome f l = Done bs <-> Forall2 (fun a b => f a = Done b) l bs.
Proof.
  revert bs. induction l as [|a l IH]; intros bs; cbn [map_outcome].
  - split; [intros [= <-]; constructor|by intros ->%Forall2_nil_inv_l].
  - split.
    + destruct (f a) as [b| |] eqn:Ha; [|done..]. cbn [mbind outcome_bind].
      destruct (map_outcome f l) as [bs'| |]; [|done..]. cbn [mbind outcome_bind].
      intros [= <-]. constructor; [done|]. by apply IH.
    + intros (b & bs' & Hb & Hbs & ->)%Forall2_cons_inv_l.
      rewrite Hb. cbn [mbind outcome_bind]. apply IH in Hbs. by rewrite Hbs.
Qed.

(** X18: when the namespace the parser returns holds a malformed point
    string among the [-p] values, [main] exits with status 1 without
    calling [process_image], even when both colours are fine. *)
Theorem malformed_point_exits (parse_args : list String.string -> parse_result)
    (argv : list String.string) (args : arguments) (p : String.string) :
  parse_args argv = Namespace args ->
  p ∈ arg_points args ->
  (forall c, parse_point p <> Done c) ->
  main parse_args argv = SysExit 1.
Proof.
  intros Hargs Hp Hbad. unfold main. rewrite Hargs.
  destruct (parse_color (arg_lower_color args)); [|done..].
  destruct (parse_color (arg_upper_color args)); [|done..].
  destruct (map_outcome parse_point (arg_points args)) as [pts| |] eqn:Hpts; [|done..].
  exfalso. apply map_outcome_Done in Hpts.
  apply list_elem_of_lookup in Hp as [i Hi].
  destruct (Forall2_lookup_l _ _ _ i p Hpts Hi) as (c & _ & Hc).
  by apply (Hbad c).
Qed.

Lemma malformed_point_exits_witness :
  main strict_parse_args
    ["icon.png"; "0,0,0"; "20,20,20"; "-f"; "-p"; "1,1"; "3;4"]%string
  = SysExit 1.
Proof.
  apply (malformed_point_exits strict_parse_args
           ["icon.png"; "0,0,0"; "20,20,20"; "-f"; "-p"; "1,1"; "3;4"]%string
           {| arg_input := "icon.png"; arg_lower_color := "0,0,0";
              arg_upper_color := "20,20,20"; arg_inverse := false; arg_hsv := false;
              arg_flood_fill := true; arg_points := ["1,1"; "3;4"]%string;
              arg_output := "output.png" |}
           "3;4").
  - vm_compute. reflexivity.
  - cbn. set_solver.
  - intros c. vm_compute. discriminate.
Defined.

(** X19: when the parser exits, [main] exits with the parser's status;
    when it returns a namespace, [main] either exits with status 1 or
    calls [process_image] once, with the paths and flags of the namespace,
    both colours parsed with all components in [0,255], and the points
    parsed one by one in order. *)
Theorem main_outcomes (parse_args : list String.string -> parse_result)
    (argv : list String.string) :
  match parse_args argv with
  | ArgparseExit status => main parse_args argv = SysExit status
  | Namespace args =>
      main parse_args argv = SysExit 1 \/
      exists lower upper manual,
        main parse_args argv
        = ProcessImage (arg_input args) lower upper (arg_inverse args)
            (arg_flood_fill args) manual (arg_output args) (arg_hsv args) /\
        parse_color (arg_lower_color args) = Done lower /\
        parse_color (arg_upper_color args) = Done upper /\
        Forall2 (fun s c => parse_point s = Done c) (arg_points args) manual /\
        Forall (fun '(c1, c2, c3) => 0 <= c1 <= 255 /\ 0 <= c2 <= 255 /\ 0 <= c3 <= 255)
          [lower; upper]
  end.
Proof.
  assert (forall s c1 c2 c3, parse_color s = Done (c1, c2, c3) ->
            0 <= c1 <= 255 /\ 0 <= c2 <= 255 /\ 0 <= c3 <= 255) as Hrange.
  { intros s c1 c2 c3. unfold parse_color.
    destruct (color_components s) as [[|r [|g [|b [|? ?]]]]| |]; try done.
    cbn [forallb]. destruct (_ && _) eqn:Hb; [|done]. intros [= <- <- <-].
    rewrite !andb_true_iff in Hb. lia. }
  unfold main. destruct (parse_args argv) as [status|args]; [done|].
  destruct (parse_color (arg_lower_color args)) as [[[l1 l2] l3]| |] eqn:Hl; [|by left..].
  destruct (parse_color (arg_upper_color args)) as [[[u1 u2] u3]| |] eqn:Hu; [|by left..].
  destruct (map_outcome parse_point (arg_points args)) as [pts| |] eqn:Hpts; [|by left..].
  right. exists (l1, l2, l3), (u1, u2, u3), pts.
  split; [done|]. split; [done|]. split; [done|].
  split; [by apply map_outcome_Done|].
  constructor; [by apply (Hrange _ _ _ _ Hl)|].
  constructor; [by apply (Hrange _ _ _ _ Hu)|constructor].
Qed.

(** X20: when the namespace the parser returns holds colours with
    components in [0,255] and points of at most 4300 digits a coordinate,
    all written in decimal, they reach [process_image] exactly as given,
    with the paths and flags of the namespace. *)
Theorem main_passes_typed_values (parse_args : list String.string -> parse_result)
    (argv : list String.string) (input output : String.string)
    (lower upper : color) (inv hsv flood : bool) (points : list coord) :
  parse_args argv
  = Namespace {| arg_input := input;
                 arg_lower_color := color_string lower.1.1 lower.1.2 lower.2;
                 arg_upper_color := color_string upper.1.1 upper.1.2 upper.2;
                 arg_inverse := inv; arg_hsv := hsv; arg_flood_fill := flood;
                 arg_points := (fun c : coord => point_string c.1 c.2) <$> points;
                 arg_output := output |} ->
  Forall (fun '(c1, c2, c3) => 0 <= c1 <= 255 /\ 0 <= c2 <= 255 /\ 0 <= c3 <= 255)
    [lower; upper] ->
  Forall (fun c : coord => Z.abs c.1 < 10 ^ PyStr.max_str_digits /\
                           Z.abs c.2 < 10 ^ PyStr.max_str_digits) points ->
  main parse_args argv = ProcessImage input lower upper inv flood points output hsv.
Proof.
  destruct lower as [[l1 l2] l3], upper as [[u1 u2] u3].
  intros Hargs [Hl [Hu _]%Forall_cons]%Forall_cons Hpoints.
  unfold main. rewrite Hargs.
  cbn [arg_lower_color arg_upper_color arg_points fst snd
       arg_input arg_inverse arg_flood_fill arg_output arg_hsv].
  rewrite !parse_color_decimal.
  replace ((0 <=? l1) && (l1 <=? 255) && ((0 <=? l2) && (l2 <=? 255))
           && ((0 <=? l3) && (l3 <=? 255))) with true
    by (symmetry; rewrite !andb_true_iff; lia).
  replace ((0 <=? u1) && (u1 <=? 255) && ((0 <=? u2) && (u2 <=? 255))
           && ((0 <=? u3) && (u3 <=? 255))) with true
    by (symmetry; rewrite !andb_true_iff; lia).
  replace (map_outcome parse_point ((fun c : coord => point_string c.1 c.2) <$> points))
    with (Done points); [done|].
  symmetry. apply map_outcome_Done. apply Forall2_fmap_l, Forall2_same_length_lookup.
  split; [done|]. intros i [x y] c Hi Hi'. rewrite Hi in Hi'. injection Hi' as <-.
  rewrite Forall_lookup in Hpoints. destruct (Hpoints i (x, y) Hi) as [Hx Hy].
  cbn [fst snd] in Hx, Hy.
  change (parse_point (point_string x y) = Done (x, y)). rewrite parse_point_decimal.
  apply Z.ltb_lt in Hx, Hy. by rewrite Hx, Hy.
Qed.

Lemma main_passes_typed_values_witness :
  main strict_parse_args
    ["icon.png"; "0,100,100"; "10,255,255"; "--hsv"; "-f"; "-p"; "3,4"; "1,0"]%string
  = ProcessImage "icon.png" (0, 100, 100) (10, 255, 255) false true
      [(3, 4); (1, 0)] "output.png" true.
Proof.
  apply (main_passes_typed_values strict_parse_args
           ["icon.png"; "0,100,100"; "10,255,255"; "--hsv"; "-f"; "-p"; "3,4"; "1,0"]%string
           "icon.png" "output.png" (0, 100, 100) (10, 255, 255)
           false true true [(3, 4); (1, 0)]).
  - vm_compute. reflexivity.
  - repeat constructor; lia.
  - repeat constructor; vm_compute; reflexivity.
Defined.
